(** * A verification development for [demo_poisson.py]

    The script drives the DOLFIN finite-element library: it reads a mesh,
    marks the mesh edges, declares a pressure problem and a projection
    problem, and calls the library's [solve] twice.  This file embeds

    - the coefficient [k] of the pressure problem, in binary64 arithmetic
      (module [Coefficient], with the facts about rounding it needs in
      module [Binary64]),
    - the loop that fills the edge marker [boundaries] (module
      [BoundaryTags]),
    - the script itself, as a state-passing program that records the
      library calls it makes (module [Script]),
    - the sub-domain functions against the loop's tests (module
      [Regions]), the boundary datum [g] (module [BoundaryData]) and the
      loop on any array and in any order (module [MarkingLoop]), and
    - the assemble-and-solve pipeline the script delegates to, in exact
      rational arithmetic (module [Pipeline]). *)

From Stdlib Require Import Floats ZArith QArith Qcanon Lia Bool String.
From stdpp Require Import gmap list.

#[local] Set Warnings "-inexact-float,-register-all".

(* ===================================================================== *)
(** ** Binary64 arithmetic                                                *)
(* ===================================================================== *)

(** The operations on floats are specified by the functions of [SpecFloat]
    on a sign, a mantissa and an exponent.  What follows is read off those
    functions: how a product or a difference is rounded, when it is exact,
    where its leading bit can end up, and what sign it has. *)

Module Binary64.
#[local] Open Scope Z_scope.

(** The position of the leading bit of a mantissa with its exponent: the
    value [m * 2^e] lies in [[2^(mag - 1), 2^mag)]. *)
Definition mag (m : positive) (e : Z) : Z := Zpos (digits2_pos m) + e.

Lemma digits2_size (m : positive) : digits2_pos m = Pos.size m.
Proof. induction m; simpl; congruence. Qed.

Lemma digits2_log2 (m : positive) : Zpos (digits2_pos m) = Z.log2 (Zpos m) + 1.
Proof.
  rewrite digits2_size. destruct m; simpl; lia.
Qed.

Lemma Zdigits2_log2 (a : Z) : 0 < a -> Zdigits2 a = Z.log2 a + 1.
Proof. destruct a; try lia. intros _. apply digits2_log2. Qed.

Lemma fexp_eq (x : Z) : fexp prec emax x = Z.max (x - 53) (-1074).
Proof. unfold fexp, SpecFloat.emin, prec, emax. lia. Qed.

Lemma shr_1_m (mrs : shr_record) :
  0 <= shr_m mrs -> shr_m (shr_1 mrs) = shr_m mrs / 2.
Proof.
  destruct mrs as [m r s]. cbn [shr_m]. intros Hm.
  destruct m as [|p|p]; [reflexivity| |lia].
  destruct p as [p|p|]; cbn [shr_1 shr_m].
  - rewrite Pos2Z.inj_xI. apply Z.div_unique with 1; lia.
  - rewrite Pos2Z.inj_xO. apply Z.div_unique with 0; lia.
  - reflexivity.
Qed.

Lemma pow2_xI (p : positive) : 2 ^ Zpos p~1 = 2 * (2 ^ Zpos p * 2 ^ Zpos p).
Proof.
  rewrite Pos2Z.inj_xI. replace (2 * Z.pos p + 1) with (Z.pos p + Z.pos p + 1) by lia.
  rewrite (Z.pow_add_r 2 (Z.pos p + Z.pos p) 1), (Z.pow_add_r 2 (Z.pos p) (Z.pos p)) by lia.
  change (2 ^ 1) with 2. ring.
Qed.

Lemma pow2_xO (p : positive) : 2 ^ Zpos p~0 = 2 ^ Zpos p * 2 ^ Zpos p.
Proof.
  rewrite (Pos2Z.inj_xO p). replace (2 * Z.pos p) with (Z.pos p + Z.pos p) by lia.
  rewrite (Z.pow_add_r 2 (Z.pos p) (Z.pos p)) by lia. ring.
Qed.

Lemma iter_shr_1_m (p : positive) (mrs : shr_record) :
  0 <= shr_m mrs -> shr_m (SpecFloat.iter_pos shr_1 p mrs) = shr_m mrs / 2 ^ Zpos p.
Proof.
  revert mrs. induction p as [p IH|p IH|]; intros mrs Hm; cbn [SpecFloat.iter_pos].
  - assert (H1 : 0 <= shr_m (shr_1 mrs)) by (rewrite shr_1_m by lia; apply Z.div_pos; lia).
    assert (H2 : 0 <= shr_m (SpecFloat.iter_pos shr_1 p (shr_1 mrs)))
      by (rewrite IH by lia; apply Z.div_pos; lia).
    rewrite IH, IH, shr_1_m by lia.
    rewrite !Z.div_div by lia. f_equal. rewrite pow2_xI. ring.
  - assert (H2 : 0 <= shr_m (SpecFloat.iter_pos shr_1 p mrs))
      by (rewrite IH by lia; apply Z.div_pos; lia).
    rewrite IH, IH by lia. rewrite Z.div_div by lia. f_equal.
    rewrite pow2_xO. ring.
  - apply shr_1_m. exact Hm.
Qed.

Lemma shr_1_even (a : Z) :
  0 < a -> shr_1 (Build_shr_record (2 * a) false false) = Build_shr_record a false false.
Proof. destruct a; try lia. reflexivity. Qed.

Lemma iter_shr_1_exact (p : positive) (a : Z) :
  0 < a ->
  SpecFloat.iter_pos shr_1 p (Build_shr_record (a * 2 ^ Zpos p) false false)
  = Build_shr_record a false false.
Proof.
  revert a. induction p as [p IH|p IH|]; intros a Ha; cbn [SpecFloat.iter_pos].
  - replace (a * 2 ^ Z.pos p~1) with (2 * ((a * 2 ^ Zpos p) * 2 ^ Zpos p))
      by (rewrite pow2_xI; ring).
    rewrite shr_1_even by lia. rewrite IH by lia. apply IH. exact Ha.
  - replace (a * 2 ^ Z.pos p~0) with ((a * 2 ^ Zpos p) * 2 ^ Zpos p)
      by (rewrite pow2_xO; ring).
    rewrite IH by lia. apply IH. exact Ha.
  - change (2 ^ 1) with 2. rewrite Z.mul_comm. apply shr_1_even. exact Ha.
Qed.


Lemma shr_record_of_loc_m (m : Z) (l : location) : shr_m (shr_record_of_loc m l) = m.
Proof. destruct l as [|[]]; reflexivity. Qed.

(** A right shift divides the mantissa and raises the exponent. *)
Lemma shr_spec (mrs : shr_record) (e n : Z) :
  0 <= shr_m mrs ->
  shr_m (fst (shr mrs e n)) = shr_m mrs / 2 ^ Z.max n 0
  /\ snd (shr mrs e n) = e + Z.max n 0.
Proof.
  intros Hm. destruct n as [|p|p]; cbn [shr fst snd].
  - change (Z.max 0 0) with 0. rewrite Z.div_1_r. lia.
  - rewrite iter_shr_1_m by exact Hm. rewrite Z.max_l by lia. lia.
  - replace (Z.max (Z.neg p) 0) with 0 by lia. rewrite Z.div_1_r. lia.
Qed.

(** What [binary_round_aux] returns once the mantissa and the exponent are
    settled. *)
Definition finish (s : bool) (m e : Z) : spec_float :=
  match m with
  | Z0 => S754_zero s
  | Zpos p => if e <=? emax - prec then S754_finite s p e else S754_infinity s
  | Zneg _ => S754_nan
  end.

Lemma round_nearest_even_bracket (m : Z) (l : location) :
  m <= round_nearest_even m l <= m + 1.
Proof.
  destruct l as [|[]]; cbn [round_nearest_even]; try lia.
  destruct (Z.even m); lia.
Qed.

(** Rounding, step by step: shift to the exponent of the format, round to
    a neighbour, shift once more if the mantissa grew a bit. *)
Lemma binary_round_aux_spec (s : bool) (mx e : Z) (lx : location) :
  0 <= mx ->
  let n1 := Z.max (fexp prec emax (Zdigits2 mx + e) - e) 0 in
  exists m2,
    mx / 2 ^ n1 <= m2 <= mx / 2 ^ n1 + 1
    /\ let n2 := Z.max (fexp prec emax (Zdigits2 m2 + (e + n1)) - (e + n1)) 0 in
       binary_round_aux prec emax s mx e lx = finish s (m2 / 2 ^ n2) (e + n1 + n2).
Proof.
  intros Hmx n1. unfold binary_round_aux, shr_fexp.
  assert (H1 := shr_spec (shr_record_of_loc mx lx) e
                  (fexp prec emax (Zdigits2 mx + e) - e)).
  rewrite shr_record_of_loc_m in H1. specialize (H1 Hmx).
  destruct (shr (shr_record_of_loc mx lx) e (fexp prec emax (Zdigits2 mx + e) - e))
    as [mrs1 e1]. cbn [fst snd] in H1. destruct H1 as [Hm1 He1].
  fold n1 in Hm1, He1.
  set (m2 := round_nearest_even (shr_m mrs1) (loc_of_shr_record mrs1)).
  assert (Hb : shr_m mrs1 <= m2 <= shr_m mrs1 + 1) by apply round_nearest_even_bracket.
  assert (Hm1' : 0 <= shr_m mrs1) by (rewrite Hm1; apply Z.div_pos; lia).
  exists m2. split; [rewrite <- Hm1; exact Hb|].
  cbv zeta.
  assert (H2 := shr_spec (shr_record_of_loc m2 loc_Exact) e1
                  (fexp prec emax (Zdigits2 m2 + e1) - e1)).
  rewrite shr_record_of_loc_m in H2. specialize (H2 ltac:(lia)).
  destruct (shr (shr_record_of_loc m2 loc_Exact) e1 (fexp prec emax (Zdigits2 m2 + e1) - e1))
    as [mrs2 e2]. cbn [fst snd] in H2. destruct H2 as [Hm2 He2].
  subst e1 e2. rewrite Hm2. reflexivity.
Qed.


Lemma bounded_spec (m : positive) (e : Z) :
  bounded prec emax m e = true <->
  fexp prec emax (mag m e) = e /\ e <= emax - prec.
Proof.
  unfold bounded, canonical_mantissa, mag.
  rewrite andb_true_iff, Z.eqb_eq, Z.leb_le. reflexivity.
Qed.

(** A mantissa that ends in [n] zeros and fits the format once they are
    dropped is not rounded. *)
Lemma binary_round_aux_exact (s : bool) (m : positive) (e n : Z) :
  0 <= n -> bounded prec emax m (e + n) = true ->
  binary_round_aux prec emax s (Zpos m * 2 ^ n) e loc_Exact = S754_finite s m (e + n).
Proof.
  intros Hn Hb. apply bounded_spec in Hb as [Hc He]. unfold mag in Hc.
  unfold binary_round_aux, shr_fexp.
  assert (Hpos : 0 < Zpos m * 2 ^ n) by (apply Z.mul_pos_pos; [lia | apply Z.pow_pos_nonneg; lia]).
  rewrite (Zdigits2_log2 _ Hpos), Z.log2_mul_pow2 by lia.
  replace (n + Z.log2 (Z.pos m) + 1 + e) with (Zpos (digits2_pos m) + (e + n))
    by (rewrite digits2_log2; lia).
  rewrite Hc. replace (e + n - e) with n by lia.
  assert (Hshr : shr (shr_record_of_loc (Z.pos m * 2 ^ n) loc_Exact) e n
                 = (Build_shr_record (Zpos m) false false, e + n)).
  { destruct n as [|p|p]; [| |lia]; cbn [shr shr_record_of_loc].
    - rewrite Z.mul_1_r, Z.add_0_r. reflexivity.
    - rewrite iter_shr_1_exact by lia. reflexivity. }
  rewrite Hshr. cbn [shr_m loc_of_shr_record round_nearest_even Zdigits2].
  rewrite Hc, Z.sub_diag. cbn [shr shr_record_of_loc shr_m].
  apply Z.leb_le in He. rewrite He. reflexivity.
Qed.









(** *** Signs *)

(** Not a NaN, and with sign [s]. *)
Definition signed (s : bool) (x : spec_float) : Prop :=
  match x with
  | S754_zero s' | S754_infinity s' | S754_finite s' _ _ => s' = s
  | S754_nan => False
  end.

Lemma finish_signed (s : bool) (m e : Z) : 0 <= m -> signed s (finish s m e).
Proof.
  intros Hm. destruct m as [|p|p]; cbn [finish signed]; [reflexivity | | lia].
  destruct (e <=? emax - prec); reflexivity.
Qed.

Lemma binary_round_aux_signed (s : bool) (mx e : Z) (lx : location) :
  0 <= mx -> signed s (binary_round_aux prec emax s mx e lx).
Proof.
  intros Hmx. destruct (binary_round_aux_spec s mx e lx Hmx) as [m2 [Hm2 Heq]].
  cbv zeta in Heq. rewrite Heq. apply finish_signed.
  assert (0 <= mx / 2 ^ Z.max (fexp prec emax (Zdigits2 mx + e) - e) 0)
    by (apply Z.div_pos; [lia | apply Z.pow_pos_nonneg; lia]).
  apply Z.div_pos; [lia | apply Z.pow_pos_nonneg; lia].
Qed.

Lemma SFmul_square_signed (x : spec_float) :
  x <> S754_nan -> signed false (SF64mul x x).
Proof.
  intros Hx. destruct x as [s|s| |s m e]; cbn [SF64mul SFmul signed].
  - apply xorb_nilpotent.
  - apply xorb_nilpotent.
  - congruence.
  - unfold SF64mul, SFmul. rewrite xorb_nilpotent. apply binary_round_aux_signed. lia.
Qed.

(** *** Multiplying by one and by zero, adding zero *)

Definition SFone : spec_float := S754_finite false 4503599627370496 (-52).

Lemma Prim2SF_one : Prim2SF 1 = SFone.
Proof. vm_compute. reflexivity. Qed.

Lemma Prim2SF_zero : Prim2SF 0 = S754_zero false.
Proof. vm_compute. reflexivity. Qed.

Lemma SFmul_one (x : spec_float) :
  valid_binary x = true -> SF64mul x SFone = x.
Proof.
  intros Hv. destruct x as [s|s| |s m e]; unfold SF64mul, SFone; cbn [SFmul].
  - now rewrite xorb_false_r.
  - now rewrite xorb_false_r.
  - reflexivity.
  - rewrite xorb_false_r. cbn [valid_binary] in Hv.
    replace (Z.pos (m * 4503599627370496)) with (Z.pos m * 2 ^ 52)
      by (rewrite Pos2Z.inj_mul; reflexivity).
    rewrite binary_round_aux_exact; [f_equal; lia | lia |].
    replace (e + -52 + 52) with e by lia. exact Hv.
Qed.

Lemma SFmul_zero (x : spec_float) :
  signed false x ->
  SF64mul x (S754_zero false)
  = match x with S754_infinity _ => S754_nan | _ => S754_zero false end.
Proof.
  destruct x as [s|s| |s m e]; cbn [signed SF64mul SFmul]; intros Hs;
    try subst s; try reflexivity. contradiction.
Qed.

Lemma SFadd_zero_r (x : spec_float) :
  signed false x -> SF64add x (S754_zero false) = x.
Proof.
  destruct x as [s|s| |s m e]; cbn [signed]; intros Hs; try subst s; reflexivity.
Qed.

Lemma SFadd_zero_l (x : spec_float) :
  signed false x -> SF64add (S754_zero false) x = x.
Proof.
  destruct x as [s|s| |s m e]; cbn [signed]; intros Hs; try subst s; reflexivity.
Qed.

Lemma mul_1_r (x : float) : (x * 1)%float = x.
Proof.
  apply Prim2SF_inj. rewrite mul_spec, Prim2SF_one. apply SFmul_one, Prim2SF_valid.
Qed.

(** *** Comparisons *)

Lemma SFcompare_antisym (x y : spec_float) :
  SFcompare y x = option_map CompOpp (SFcompare x y).
Proof.
  destruct x as [s1|s1| |s1 m1 e1], y as [s2|s2| |s2 m2 e2]; cbn [SFcompare option_map];
    try reflexivity;
    try (destruct s1; reflexivity); try (destruct s2; reflexivity);
    try (destruct s1, s2; reflexivity).
  destruct s1, s2; try reflexivity; f_equal;
    rewrite (Z.compare_antisym e1 e2); destruct (e1 ?= e2); cbn [CompOpp]; try reflexivity;
    rewrite (Pos.compare_cont_antisym m1 m2 Eq); cbn [CompOpp];
    try rewrite CompOpp_involutive; reflexivity.
Qed.

Lemma ltb_not_leb (x y : float) : (x <? y)%float = true -> (y <=? x)%float = false.
Proof.
  rewrite ltb_spec, leb_spec. unfold SFltb, SFleb.
  rewrite (SFcompare_antisym (Prim2SF x) (Prim2SF y)).
  destruct (SFcompare (Prim2SF x) (Prim2SF y)) as [[]|]; cbn; congruence.
Qed.

Lemma leb_not_ltb (x y : float) : (x <=? y)%float = true -> (y <? x)%float = false.
Proof.
  rewrite ltb_spec, leb_spec. unfold SFltb, SFleb.
  rewrite (SFcompare_antisym (Prim2SF x) (Prim2SF y)).
  destruct (SFcompare (Prim2SF x) (Prim2SF y)) as [[]|]; cbn; congruence.
Qed.

Lemma is_nan_Prim2SF (x : float) :
  is_nan x = match Prim2SF x with S754_nan => true | _ => false end.
Proof.
  unfold is_nan. rewrite FloatAxioms.eqb_spec. unfold SFeqb.
  destruct (Prim2SF x) as [s|s| |s m e]; cbn [SFcompare]; try reflexivity.
  - destruct s; reflexivity.
  - destruct s; rewrite Z.compare_refl, Pos.compare_cont_refl; reflexivity.
Qed.

Lemma is_infinity_Prim2SF (x : float) :
  is_infinity x = match Prim2SF x with S754_infinity _ => true | _ => false end.
Proof.
  unfold is_infinity. rewrite FloatAxioms.eqb_spec, abs_spec.
  replace (Prim2SF infinity) with (S754_infinity false) by (vm_compute; reflexivity).
  unfold SFeqb. destruct (Prim2SF x) as [s|s| |s m e]; reflexivity.
Qed.

Lemma compare_nan_r (x : spec_float) : SFcompare x S754_nan = None.
Proof. destruct x; reflexivity. Qed.


Lemma SFcompare_some (x y : spec_float) :
  x <> S754_nan -> y <> S754_nan -> exists c, SFcompare x y = Some c.
Proof.
  intros Hx Hy. destruct x as [s1|s1| |s1 m1 e1], y as [s2|s2| |s2 m2 e2];
    try congruence; cbn [SFcompare]; eexists; reflexivity.
Qed.

Lemma ltb_or_leb (x y : float) :
  is_nan x = false -> is_nan y = false ->
  (x <? y)%float = true \/ (y <=? x)%float = true.
Proof.
  rewrite !is_nan_Prim2SF, ltb_spec, leb_spec. intros Hx Hy. unfold SFltb, SFleb.
  rewrite (SFcompare_antisym (Prim2SF x) (Prim2SF y)).
  destruct (SFcompare_some (Prim2SF x) (Prim2SF y)) as [c ->].
  - intros E. rewrite E in Hx. discriminate.
  - intros E. rewrite E in Hy. discriminate.
  - destruct c; cbn; auto.
Qed.

Lemma ltb_not_nan (x y : float) : (x <? y)%float = true -> is_nan x = false.
Proof.
  rewrite ltb_spec, is_nan_Prim2SF. unfold SFltb.
  destruct (Prim2SF x); [reflexivity..|discriminate|reflexivity].
Qed.

Lemma leb_not_nan_r (x y : float) : (x <=? y)%float = true -> is_nan y = false.
Proof.
  rewrite leb_spec, is_nan_Prim2SF. unfold SFleb.
  destruct (Prim2SF y); try reflexivity. rewrite compare_nan_r. discriminate.
Qed.

Lemma signed_leb_zero (x : spec_float) :
  signed false x -> SFleb (S754_zero false) x = true.
Proof.
  destruct x as [s|s| |s m e]; cbn [signed]; intros Hs; try subst s; try reflexivity.
  contradiction.
Qed.

(** *** Rounding at the end of a sum *)

Lemma iter_xO (m d : positive) : Zpos (Pos.iter xO m d) = Zpos m * 2 ^ Zpos d.
Proof.
  induction d as [|d IH] using Pos.peano_ind.
  - cbn [Pos.iter]. change (2 ^ 1) with 2. lia.
  - rewrite Pos.iter_succ, Pos2Z.inj_xO, IH, Pos2Z.inj_succ, Z.pow_succ_r by lia. ring.
Qed.

Lemma shl_align_spec (m : positive) (e e' : Z) :
  snd (shl_align m e e') = Z.min e e'
  /\ Zpos (fst (shl_align m e e')) = Zpos m * 2 ^ (e - Z.min e e').
Proof.
  unfold shl_align. destruct (e' - e) as [|d|d] eqn:Ed; cbn [fst snd].
  - rewrite Z.min_l by lia. rewrite Z.sub_diag. lia.
  - rewrite Z.min_l by lia. rewrite Z.sub_diag. lia.
  - rewrite Z.min_r by lia. split; [reflexivity|].
    rewrite iter_xO. f_equal. f_equal. lia.
Qed.


Lemma binary_round_signed (s : bool) (m : positive) (e : Z) :
  signed s (binary_round prec emax s m e).
Proof.
  unfold binary_round. destruct (shl_align m e _) as [mz ez].
  apply binary_round_aux_signed. lia.
Qed.










Lemma SFsub_finite_not_nan (s : bool) (m : positive) (e : Z) (y : spec_float) :
  y <> S754_nan -> SF64sub (S754_finite s m e) y <> S754_nan.
Proof.
  intros Hy. destruct y as [s2|s2| |s2 m2 e2]; cbn [SF64sub SFsub]; try congruence.
  unfold SF64sub, SFsub. cbv zeta.
  destruct (_ - _)%Z as [|p|p]; cbn [binary_normalize]; try discriminate.
  - pose proof (binary_round_signed false p (Z.min e e2)) as H.
    intros E. rewrite E in H. exact H.
  - pose proof (binary_round_signed true p (Z.min e e2)) as H.
    intros E. rewrite E in H. exact H.
Qed.

Lemma SFadd_nan_r (x : spec_float) : SF64add x S754_nan = S754_nan.
Proof. destruct x; reflexivity. Qed.

Lemma valid_digits (m : positive) (e : Z) :
  bounded prec emax m e = true -> Zpos (digits2_pos m) <= 53.
Proof.
  intros Hb. apply bounded_spec in Hb as [Hc _]. unfold mag in Hc.
  rewrite fexp_eq in Hc. lia.
Qed.





Lemma compare_cont_Eq (a b : positive) : Pos.compare_cont Eq a b = Pos.compare a b.
Proof. reflexivity. Qed.

Lemma digits_53 (m : positive) :
  Zpos (digits2_pos m) = 53 -> 4503599627370496 <= Zpos m < 9007199254740992.
Proof.
  rewrite digits2_log2. intros H.
  pose proof (Z.log2_spec (Z.pos m) ltac:(lia)) as Hs.
  replace (Z.log2 (Z.pos m)) with 52 in Hs by lia.
  change (2 ^ 52) with 4503599627370496 in Hs.
  change (2 ^ Z.succ 52) with 9007199254740992 in Hs. exact Hs.
Qed.











(** *** The sign of a difference and of a quotient *)

(** A zero, or a number that is not NaN and has sign [s]. *)
Definition zero_or_signed (s : bool) (x : spec_float) : Prop :=
  match x with
  | S754_zero _ => True
  | S754_infinity s' | S754_finite s' _ _ => s' = s
  | S754_nan => False
  end.

Lemma signed_zero_or_signed (s : bool) (x : spec_float) :
  signed s x -> zero_or_signed s x.
Proof. destruct x; cbn [signed zero_or_signed]; auto. Qed.

Lemma binary_normalize_sign (d e : Z) (s : bool) :
  (if s then d <= 0 else 0 <= d) ->
  zero_or_signed s (binary_normalize prec emax d e false).
Proof.
  intros Hd. destruct d as [|p|p]; cbn [binary_normalize zero_or_signed].
  - exact I.
  - destruct s; [lia|]. apply signed_zero_or_signed, binary_round_signed.
  - destruct s; [|lia]. apply signed_zero_or_signed, binary_round_signed.
Qed.

Definition SFfive : spec_float := S754_finite false 5629499534213120 (-50).

Lemma Prim2SF_five : Prim2SF 5 = SFfive.
Proof. vm_compute. reflexivity. Qed.

(** The aligned mantissas of a finite float and of 5. *)
Lemma aligned_with_five (m : positive) (e : Z) :
  Z.pos (fst (shl_align m e (Z.min e (-50)))) = Z.pos m * 2 ^ (e - Z.min e (-50))
  /\ Z.pos (fst (shl_align 5629499534213120 (-50) (Z.min e (-50))))
     = 5629499534213120 * 2 ^ (-50 - Z.min e (-50)).
Proof.
  destruct (shl_align_spec m e (Z.min e (-50))) as [_ H1].
  destruct (shl_align_spec 5629499534213120 (-50) (Z.min e (-50))) as [_ H2].
  rewrite H1, H2. split; do 2 f_equal; lia.
Qed.

Lemma pow2_ge_2 (n : Z) : 1 <= n -> 2 <= 2 ^ n.
Proof.
  intros Hn. change 2 with (2 ^ 1) at 1. apply Z.pow_le_mono_r; lia.
Qed.

Lemma normal_mantissa (m : positive) (e : Z) :
  bounded prec emax m e = true -> -1074 < e -> 4503599627370496 <= Z.pos m.
Proof.
  intros Hb He. apply bounded_spec in Hb as [Hc _]. unfold mag in Hc.
  rewrite fexp_eq in Hc. apply digits_53. lia.
Qed.

(** Up to 5, subtracting 5 gives a zero or a negative number. *)
Lemma SFsub_five_nonpos (x : spec_float) :
  valid_binary x = true -> SFleb x SFfive = true ->
  zero_or_signed true (SF64sub x SFfive).
Proof.
  intros Hv Hle. destruct x as [s|s| |s m e].
  - reflexivity.
  - destruct s; [reflexivity|discriminate].
  - discriminate.
  - cbn [valid_binary] in Hv. pose proof (valid_digits m e Hv) as Hd.
    unfold SF64sub, SFsub, SFfive. cbv zeta.
    apply binary_normalize_sign.
    destruct (aligned_with_five m e) as [-> ->]. cbn [cond_Zopp].
    assert (Hp1 : 0 < 2 ^ (e - Z.min e (-50))) by (apply Z.pow_pos_nonneg; lia).
    assert (Hp2 : 0 < 2 ^ (-50 - Z.min e (-50))) by (apply Z.pow_pos_nonneg; lia).
    destruct s; [cbn [cond_Zopp]; nia|]. cbn [cond_Zopp].
    unfold SFleb, SFfive, SFcompare in Hle. rewrite compare_cont_Eq in Hle.
    rewrite digits2_log2 in Hd.
    assert (Hm : Z.pos m < 9007199254740992).
    { change 9007199254740992 with (2 ^ 53). apply Z.log2_lt_pow2; lia. }
    destruct (Z.compare_spec e (-50)) as [E|E|E]; try discriminate.
    + subst e. change (Z.min (-50) (-50)) with (-50) in *.
      change (2 ^ (-50 - -50)) with 1. rewrite !Z.mul_1_r.
      destruct (Pos.compare_spec m 5629499534213120) as [Em|Em|Em]; try discriminate.
      * subst m. lia.
      * apply Pos2Z.pos_lt_pos in Em. clear - Em. lia.
    + rewrite Z.min_l in * by lia. rewrite Z.sub_diag. change (2 ^ 0) with 1.
      pose proof (pow2_ge_2 (-50 - e) ltac:(lia)). clear Hle. nia.
Qed.

(** From 5 on, subtracting 5 gives a zero or a positive number. *)
Lemma SFsub_five_nonneg (x : spec_float) :
  valid_binary x = true -> SFleb SFfive x = true ->
  zero_or_signed false (SF64sub x SFfive).
Proof.
  intros Hv Hle. destruct x as [s|s| |s m e].
  - discriminate.
  - destruct s; [discriminate|reflexivity].
  - discriminate.
  - cbn [valid_binary] in Hv.
    unfold SF64sub, SFsub, SFfive. cbv zeta.
    apply binary_normalize_sign.
    destruct (aligned_with_five m e) as [-> ->].
    assert (Hp1 : 0 < 2 ^ (e - Z.min e (-50))) by (apply Z.pow_pos_nonneg; lia).
    unfold SFleb, SFfive, SFcompare in Hle. rewrite compare_cont_Eq in Hle.
    destruct s; [discriminate|]. cbn [cond_Zopp].
    destruct (Z.compare_spec (-50) e) as [E|E|E]; try discriminate.
    + subst e. change (Z.min (-50) (-50)) with (-50) in *.
      change (2 ^ (-50 - -50)) with 1. rewrite !Z.mul_1_r.
      destruct (Pos.compare_spec 5629499534213120 m) as [Em|Em|Em]; try discriminate.
      * subst m. lia.
      * apply Pos2Z.pos_lt_pos in Em. clear - Em. lia.
    + pose proof (normal_mantissa m e Hv ltac:(lia)) as Hm.
      rewrite Z.min_r in * by lia. rewrite Z.sub_diag. change (2 ^ 0) with 1.
      pose proof (pow2_ge_2 (e - -50) ltac:(lia)). clear Hle. nia.
Qed.

Lemma SFsub_five_not_nan (x : spec_float) :
  x <> S754_nan -> SF64sub x SFfive <> S754_nan.
Proof.
  intros Hx. destruct x as [s|s| |s m e]; try discriminate; [congruence|].
  unfold SF64sub, SFsub, SFfive. cbv zeta.
  destruct (_ - _) as [|p|p]; cbn [binary_normalize]; try discriminate.
  - pose proof (binary_round_signed false p (Z.min e (-50))) as H.
    intros E. rewrite E in H. exact H.
  - pose proof (binary_round_signed true p (Z.min e (-50))) as H.
    intros E. rewrite E in H. exact H.
Qed.

(** Dividing by 5 keeps the sign, and makes no NaN of a number. *)
Lemma SFdiv_five_sign (s : bool) (x : spec_float) :
  zero_or_signed s x -> zero_or_signed s (SF64div x SFfive).
Proof.
  destruct x as [s'|s'| |s' m e]; cbn [zero_or_signed]; try contradiction.
  - intros _. exact I.
  - intros ->. cbn. apply xorb_false_r.
  - intros ->. unfold SF64div, SFdiv, SFfive.
    destruct (SFdiv_core_binary _ _ _ _ _ _) as [[mz ez] lz] eqn:Ecore.
    rewrite xorb_false_r. apply signed_zero_or_signed, binary_round_aux_signed.
    unfold SFdiv_core_binary in Ecore. cbv zeta in Ecore.
    destruct (Z.div_eucl _ _) as [q r] eqn:Eq in Ecore.
    injection Ecore as <- _ _.
    match type of Eq with Z.div_eucl ?a ?b = _ =>
      assert (Hq : q = a / b) by (unfold Z.div; rewrite Eq; reflexivity);
      assert (Ha : 0 <= a)
    end.
    { destruct (_ - _ - _) as [|p|p]; [lia | apply Z.shiftl_nonneg; lia | lia]. }
    rewrite Hq. apply Z.div_pos; lia.
Qed.

Lemma SFdiv_five_not_nan (x : spec_float) :
  x <> S754_nan -> SF64div x SFfive <> S754_nan.
Proof.
  intros Hx. destruct x as [s|s| |s m e]; try discriminate; [congruence|].
  pose proof (SFdiv_five_sign s (S754_finite s m e) eq_refl) as H.
  intros E. rewrite E in H. exact H.
Qed.

End Binary64.

(* ===================================================================== *)
(** ** The coefficient [k]                                                *)
(* ===================================================================== *)

(** Line 184 of the script:
<<
k = Expression("pow(x[1], 2)*(x[1] < 0.5) + pow(1.0-x[1], 2)*(x[1]>=0.5)", degree=2)
>>
    The string is a C++ formula in the coordinates [x[0]], [x[1]] of a
    point, evaluated in binary64: a comparison yields 0 or 1 and is
    multiplied into the sum, and [pow] with the exponent 2 is the rounded
    square.  [k] is that formula; [kQ] is the same formula in exact
    arithmetic, which [Pipeline] uses. *)

Module Coefficient.
Import Binary64.
#[local] Open Scope float_scope.

(** A C++ [bool] used as a number. *)
Definition indicator (b : bool) : float := if b then 1 else 0.

(** [pow(a, 2)]: with the exponent 2 the power is the product [a * a],
    rounded once. *)
Definition pow_2 (a : float) : float := a * a.

Definition k (x0 x1 : float) : float :=
  pow_2 x1 * indicator (x1 <? 0.5) + pow_2 (1.0 - x1) * indicator (0.5 <=? x1).

Definition indicatorQ (b : bool) : Q := if b then 1%Q else 0%Q.
Definition ltQ (a b : Q) : bool := if Qlt_le_dec a b then true else false.
Definition geQ (a b : Q) : bool := if Qlt_le_dec a b then false else true.

(** The formula in exact arithmetic, for [Pipeline]. *)
Definition kQ (x0 x1 : Q) : Q :=
  (x1 ^ 2 * indicatorQ (ltQ x1 0.5) + (1.0 - x1) ^ 2 * indicatorQ (geQ x1 0.5))%Q.

(** The rational number a finite float stands for. *)
Definition rational (v : float) : option Q :=
  match Prim2SF v with
  | S754_zero _ => Some 0%Q
  | S754_finite s m e => Some (inject_Z (if s then Zneg m else Zpos m) * 2 ^ e)%Q
  | _ => None
  end.

Example kQ_quarter : (kQ 3 0.25 == 1 # 16)%Q /\ (kQ 3 0.75 == 1 # 16)%Q.
Proof. split; vm_compute; reflexivity. Qed.

Example kQ_half : (kQ 0 0.5 == 0.25)%Q.
Proof. vm_compute; reflexivity. Qed.

(** Where the coordinate is a short binary fraction, as at the vertices and
    the edge midpoints of the sample mesh of [Pipeline], nothing is rounded
    and [k] is [kQ]. *)
Example k_is_kQ_on_short_fractions :
  forallb (fun y => match rational y, rational (k 0 y) with
                    | Some qy, Some qk => Qeq_bool qk (kQ 0 qy)
                    | _, _ => false
                    end)
          [0; 0.125; 0.25; 0.375; 0.5; 0.625; 0.75; 0.875; 1] = true.
Proof. vm_compute. reflexivity. Qed.

Example k_at_points :
  k 0 0 = 0 /\ k 0 1 = 0 /\ k 0 0.5 = 0.25
  /\ pow_2 0.5 = 0.25 /\ pow_2 (1.0 - 0.5) = 0.25.
Proof. repeat split; vm_compute; reflexivity. Qed.

Lemma pow_2_signed (a : float) :
  is_nan a = false -> signed false (Prim2SF (pow_2 a)).
Proof.
  rewrite is_nan_Prim2SF. intros Ha. unfold pow_2. rewrite mul_spec.
  apply SFmul_square_signed. intros E. rewrite E in Ha. discriminate.
Qed.

Lemma one_minus_not_nan (y : float) : is_nan y = false -> is_nan (1.0 - y) = false.
Proof.
  rewrite !is_nan_Prim2SF, sub_spec, Prim2SF_one. unfold SFone. intros Hy.
  pose proof (SFsub_finite_not_nan false 4503599627370496 (-52) (Prim2SF y)) as H.
  destruct (SF64sub _ _); try reflexivity.
  exfalso. apply H; [|reflexivity]. intros E. rewrite E in Hy. discriminate.
Qed.

(** The sum of line 184 with the comparison true on the left. *)
Lemma sum_lower (w z : float) :
  signed false (Prim2SF w) -> signed false (Prim2SF z) ->
  w * 1 + z * 0 = if is_infinity z then nan else w.
Proof.
  intros Hw Hz. rewrite mul_1_r, is_infinity_Prim2SF. apply Prim2SF_inj.
  rewrite add_spec, mul_spec, Prim2SF_zero, SFmul_zero by exact Hz.
  destruct (Prim2SF z) as [s|s| |s m e] eqn:Ez; cbn [signed] in Hz.
  - apply SFadd_zero_r, Hw.
  - rewrite SFadd_nan_r. reflexivity.
  - contradiction.
  - apply SFadd_zero_r, Hw.
Qed.

(** The same with the comparison true on the right. *)
Lemma sum_upper (w z : float) :
  signed false (Prim2SF w) -> signed false (Prim2SF z) ->
  w * 0 + z * 1 = if is_infinity w then nan else z.
Proof.
  intros Hw Hz. rewrite mul_1_r, is_infinity_Prim2SF. apply Prim2SF_inj.
  rewrite add_spec, mul_spec, Prim2SF_zero, SFmul_zero by exact Hw.
  destruct (Prim2SF w) as [s|s| |s m e] eqn:Ew; cbn [signed] in Hw.
  - apply SFadd_zero_l, Hz.
  - reflexivity.
  - contradiction.
  - apply SFadd_zero_l, Hz.
Qed.

(** Below 0.5 the first square is selected; the second one is multiplied
    by zero, which gives NaN if it overflowed. *)
Lemma k_lower (x0 y : float) :
  (y <? 0.5) = true ->
  k x0 y = if is_infinity (pow_2 (1.0 - y)) then nan else pow_2 y.
Proof.
  intros Hlt. pose proof (ltb_not_nan _ _ Hlt) as Hnan.
  unfold k. rewrite Hlt, (ltb_not_leb _ _ Hlt). cbn [indicator].
  apply sum_lower; apply pow_2_signed; [|apply one_minus_not_nan]; exact Hnan.
Qed.

Lemma k_upper (x0 y : float) :
  (0.5 <=? y) = true ->
  k x0 y = if is_infinity (pow_2 y) then nan else pow_2 (1.0 - y).
Proof.
  intros Hle. pose proof (leb_not_nan_r _ _ Hle) as Hnan.
  unfold k. rewrite Hle, (leb_not_ltb _ _ Hle). cbn [indicator].
  apply sum_upper; apply pow_2_signed; [|apply one_minus_not_nan]; exact Hnan.
Qed.

Lemma k_nan (x0 y : float) : is_nan y = true -> k x0 y = nan.
Proof.
  rewrite is_nan_Prim2SF. intros Hy. apply Prim2SF_inj. unfold k, pow_2.
  rewrite add_spec, !mul_spec.
  destruct (Prim2SF y); try discriminate. reflexivity.
Qed.







Lemma half_not_nan : is_nan 0.5 = false.
Proof. reflexivity. Qed.


Lemma k_never_negative (x0 y : float) :
  is_nan (k x0 y) = true \/ (0 <=? k x0 y) = true.
Proof.
  destruct (is_nan y) eqn:Hnan.
  - left. rewrite (k_nan x0 y Hnan). reflexivity.
  - assert (Hsq : forall a, is_nan a = false -> (0 <=? pow_2 a) = true).
    { intros a Ha. rewrite leb_spec, Prim2SF_zero.
      apply signed_leb_zero, pow_2_signed, Ha. }
    destruct (ltb_or_leb y 0.5 Hnan half_not_nan) as [Hlt|Hle].
    + rewrite (k_lower x0 y Hlt). destruct (is_infinity _); [left; reflexivity|].
      right. apply Hsq, Hnan.
    + rewrite (k_upper x0 y Hle). destruct (is_infinity _); [left; reflexivity|].
      right. apply Hsq, one_minus_not_nan, Hnan.
Qed.
















(** X15.  At any float whatever: a NaN coordinate gives NaN; otherwise [k]
    is the square the comparison selects, unless the other square
    overflowed, which turns the sum into NaN; [k] is never negative. *)
Theorem k_at_every_float (x0 x1 : float) :
  (is_nan x1 = true -> k x0 x1 = nan)
  /\ ((x1 <? 0.5) = true ->
      k x0 x1 = if is_infinity (pow_2 (1.0 - x1)) then nan else pow_2 x1)
  /\ ((0.5 <=? x1) = true ->
      k x0 x1 = if is_infinity (pow_2 x1) then nan else pow_2 (1.0 - x1))
  /\ (is_nan x1 = false -> (x1 <? 0.5) = true \/ (0.5 <=? x1) = true)
  /\ (is_nan (k x0 x1) = true \/ (0 <=? k x0 x1) = true).
Proof.
  split; [apply k_nan|]. split; [apply k_lower|]. split; [apply k_upper|].
  split; [|apply k_never_negative].
  intros Hnan. apply ltb_or_leb; [exact Hnan | reflexivity].
Qed.

End Coefficient.

(* ===================================================================== *)
(** ** The edge marker [boundaries]                                       *)
(* ===================================================================== *)

(** Lines 166-172 of the script:
<<
boundaries = MeshFunction('size_t', mesh, 1, 0)
for edge in edges(mesh):
    pt = edge.midpoint()
    if pt.x() == 0.0 or pt.x() == 10.0:
        boundaries[edge] = 1
    if edge.num_entities(2) == 1 and pt.x() > 0.0 and pt.x() < 10.0 and pt.y() > 0.1 and pt.y() < 0.9:
        boundaries[edge] = 2
>>
    Coordinates are binary64 floats and are compared as such.  Of an edge the
    loop reads its midpoint and the number of cells incident to it; the edge's
    index in the mesh is its position in [edges(mesh)], and [boundaries[edge]]
    is the entry of the marker array at that index. *)

Module BoundaryTags.

Record Point := { x : float; y : float }.
Record Edge := { midpoint : Point; num_entities_2 : nat }.

(** The mesh, as far as the loop sees it: its edges, in index order. *)
Abbreviation Mesh := (list Edge).

(** The test of the first [if]. *)
Definition on_x0_or_x10 (edge : Edge) : bool :=
  let pt := midpoint edge in
  (PrimFloat.eqb (x pt) 0.0 || PrimFloat.eqb (x pt) 10.0)%bool.

(** The test of the second [if]; [a > b] is [b < a]. *)
Definition on_bubble (edge : Edge) : bool :=
  let pt := midpoint edge in
  (Nat.eqb (num_entities_2 edge) 1
   && PrimFloat.ltb 0.0 (x pt) && PrimFloat.ltb (x pt) 10.0
   && PrimFloat.ltb 0.1 (y pt) && PrimFloat.ltb (y pt) 0.9)%bool.

(** One iteration of the loop, on the marker array. *)
Definition mark_edge (boundaries : list nat) (ie : nat * Edge) : list nat :=
  let '(i, edge) := ie in
  let boundaries := if on_x0_or_x10 edge then <[i := 1]> boundaries else boundaries in
  let boundaries := if on_bubble edge then <[i := 2]> boundaries else boundaries in
  boundaries.

#[local] Arguments mark_edge : simpl never.

(** [edges(mesh)]: every edge with its index. *)
Definition edges (mesh : Mesh) : list (nat * Edge) := imap pair mesh.

(** [MeshFunction('size_t', mesh, 1, 0)]: one entry per edge, all 0. *)
Definition MeshFunction (mesh : Mesh) (value : nat) : list nat :=
  replicate (length mesh) value.

Definition mark_boundaries (mesh : Mesh) : list nat :=
  foldl mark_edge (MeshFunction mesh 0) (edges mesh).

(** The tag an edge ends with, read off the two tests. *)
Definition edge_tag (edge : Edge) : nat :=
  if on_bubble edge then 2 else if on_x0_or_x10 edge then 1 else 0.

Definition pt (px py : float) : Point := {| x := px; y := py |}.

(** A rectangle's worth of sample edges: on the left side, on the bubble,
    in the interior, on the bottom side, on the right side. *)
Definition sample_mesh : Mesh :=
  [ {| midpoint := pt 0.0 0.5; num_entities_2 := 1 |};
    {| midpoint := pt 5.0 0.5; num_entities_2 := 1 |};
    {| midpoint := pt 5.0 0.5; num_entities_2 := 2 |};
    {| midpoint := pt 5.0 0.0; num_entities_2 := 1 |};
    {| midpoint := pt 10.0 0.5; num_entities_2 := 1 |} ].

Example mark_sample_mesh : mark_boundaries sample_mesh = [1; 2; 0; 0; 1].
Proof. reflexivity. Qed.

Lemma x_is_0_not_gt_0 (v : float) :
  PrimFloat.eqb v 0.0 = true -> PrimFloat.ltb 0.0 v = false.
Proof.
  rewrite FloatAxioms.eqb_spec, FloatAxioms.ltb_spec.
  change (Prim2SF 0.0) with (S754_zero false).
  unfold SFeqb, SFltb.
  destruct (Prim2SF v) as [s|s| |s m e]; simpl; try destruct s; congruence.
Qed.

Lemma x_is_10_not_lt_10 (v : float) :
  PrimFloat.eqb v 10.0 = true -> PrimFloat.ltb v 10.0 = false.
Proof.
  rewrite FloatAxioms.eqb_spec, FloatAxioms.ltb_spec.
  unfold SFeqb, SFltb.
  destruct (SFcompare (Prim2SF v) (Prim2SF 10)) as [[| |]|]; congruence.
Qed.

(** The two tests never hold of the same edge. *)
Lemma tags_exclusive (edge : Edge) :
  on_x0_or_x10 edge = true -> on_bubble edge = false.
Proof.
  unfold on_x0_or_x10, on_bubble. cbv zeta.
  intros [H|H]%orb_true_iff.
  - rewrite (x_is_0_not_gt_0 _ H). now rewrite andb_false_r.
  - rewrite (x_is_10_not_lt_10 _ H). now rewrite !andb_false_r.
Qed.

(** An iteration at the first untouched entry writes that edge's tag. *)
Lemma mark_edge_fresh (marked : list nat) (rest : nat) (edge : Edge) :
  mark_edge (marked ++ 0 :: replicate rest 0) (length marked, edge)
  = (marked ++ [edge_tag edge]) ++ replicate rest 0.
Proof.
  unfold mark_edge, edge_tag.
  assert (Hins : forall v w, <[length marked := v]> (marked ++ w :: replicate rest 0)
                             = marked ++ v :: replicate rest 0).
  { intros v w. rewrite insert_app_r_alt by lia.
    now replace (length marked - length marked) with 0 by lia. }
  destruct (on_x0_or_x10 edge), (on_bubble edge);
    rewrite ?Hins, <- ?app_assoc; reflexivity.
Qed.

(** Loop invariant: after the first edges, their entries hold their tags and
    the rest of the array is still 0. *)
Lemma mark_loop_prefix (m : nat) (mesh : Mesh) :
  length mesh <= m ->
  foldl mark_edge (replicate m 0) (edges mesh)
  = (edge_tag <$> mesh) ++ replicate (m - length mesh) 0.
Proof.
  unfold edges. induction mesh as [|e mesh IH] using rev_ind; intros Hm.
  - simpl. now rewrite Nat.sub_0_r.
  - rewrite length_app in Hm. simpl in Hm.
    rewrite imap_app, foldl_app. simpl.
    rewrite IH by lia. rewrite Nat.add_0_r.
    replace (m - length mesh) with (S (m - length (mesh ++ [e])))
      by (rewrite length_app; simpl; lia).
    simpl replicate.
    rewrite <- (length_fmap edge_tag mesh) at 1.
    rewrite mark_edge_fresh. now rewrite fmap_app.
Qed.

Lemma mark_boundaries_map (mesh : Mesh) : mark_boundaries mesh = edge_tag <$> mesh.
Proof.
  unfold mark_boundaries, MeshFunction. rewrite mark_loop_prefix by lia.
  rewrite Nat.sub_diag. simpl. apply app_nil_r.
Qed.

Lemma mark_boundaries_lookup (mesh : Mesh) (i : nat) (edge : Edge) :
  mesh !! i = Some edge -> mark_boundaries mesh !! i = Some (edge_tag edge).
Proof.
  intros H. rewrite mark_boundaries_map, list_lookup_fmap, H. reflexivity.
Qed.

(** C1.  For every edge of the mesh, the marker holds 1 exactly when the
    edge's midpoint has [x] equal to 0 or to 10, holds 2 exactly when the
    edge has exactly one incident cell and its midpoint has [0 < x < 10] and
    [0.1 < y < 0.9], and holds 0 for every other edge.  The two conditions
    exclude each other, so the order of the two [if]s (the second would
    overwrite the first) never shows. *)
Theorem boundary_tags_correct (mesh : Mesh) (i : nat) (edge : Edge) :
  mesh !! i = Some edge ->
  let px := x (midpoint edge) in
  let py := y (midpoint edge) in
  let at_x0_or_x10 := (px =? 0.0)%float = true \/ (px =? 10.0)%float = true in
  let on_bubble_side :=
    num_entities_2 edge = 1 /\
    (0.0 <? px)%float = true /\ (px <? 10.0)%float = true /\
    (0.1 <? py)%float = true /\ (py <? 0.9)%float = true in
  (mark_boundaries mesh !! i = Some 1 <-> at_x0_or_x10) /\
  (mark_boundaries mesh !! i = Some 2 <-> on_bubble_side) /\
  (mark_boundaries mesh !! i = Some 0 <-> ~ at_x0_or_x10 /\ ~ on_bubble_side) /\
  ~ (at_x0_or_x10 /\ on_bubble_side).
Proof.
  intros Hi px py at_x0_or_x10 on_bubble_side.
  rewrite (mark_boundaries_lookup _ _ _ Hi).
  assert (H1 : on_x0_or_x10 edge = true <-> at_x0_or_x10).
  { unfold on_x0_or_x10, at_x0_or_x10. cbv zeta. apply orb_true_iff. }
  assert (H2 : on_bubble edge = true <-> on_bubble_side).
  { unfold on_bubble, on_bubble_side. cbv zeta.
    rewrite !andb_true_iff, Nat.eqb_eq. fold px py. tauto. }
  pose proof (tags_exclusive edge) as Hex.
  clearbody at_x0_or_x10 on_bubble_side. unfold edge_tag.
  destruct (on_bubble edge), (on_x0_or_x10 edge); intuition congruence.
Qed.

(** The theorem at the second edge of [sample_mesh], which lies on the
    bubble. *)
Lemma boundary_tags_correct_sample :
  sample_mesh !! 1 = Some {| midpoint := pt 5.0 0.5; num_entities_2 := 1 |} /\
  mark_boundaries sample_mesh !! 1 = Some 2.
Proof.
  split; [reflexivity|].
  apply (boundary_tags_correct sample_mesh 1 _ eq_refl).
  repeat split; reflexivity.
Defined.

(** X1.  The marker has one entry per edge, and every entry is 0, 1 or 2. *)
Theorem boundary_tags_range (mesh : Mesh) :
  length (mark_boundaries mesh) = length mesh /\
  Forall (fun tag => tag = 0 \/ tag = 1 \/ tag = 2) (mark_boundaries mesh).
Proof.
  rewrite mark_boundaries_map. split; [apply length_fmap|].
  rewrite Forall_fmap. apply Forall_forall. intros edge _.
  unfold compose, edge_tag.
  destruct (on_bubble edge), (on_x0_or_x10 edge); auto.
Qed.

End BoundaryTags.

(* ===================================================================== *)
(** ** The script                                                         *)
(* ===================================================================== *)

(** The script is straight-line code over library objects.  Forms, spaces
    and coefficients are symbolic values; the calls that do work in the
    library or outside the process (reading and writing files, printing,
    building a boundary condition, creating a [Function], [solve]) are
    recorded, in order, in a trace.  The marker [boundaries] is the one
    mutable object the script itself writes to. *)

Module Script.
Import BoundaryTags.

(** [FunctionSpace(mesh, family, degree)] and
    [VectorFunctionSpace(mesh, family, degree)], on the one mesh. *)
Inductive Space :=
| FunctionSpace (family : string) (degree : nat)
| VectorFunctionSpace (family : string) (degree : nat).

(** UFL expressions, as the script's operators build them. *)
Inductive Expr :=
| Num (v : float)
| Constant (v : float)
| ConstantVector (v : list float)
| Expression (cpp : string) (degree : nat)
| TrialFunction (V : Space)
| TestFunction (V : Space)
| Function (id : nat) (V : Space)
| FacetNormal
| grad (f : Expr)
| inner (a b : Expr)
| dot (a b : Expr)
| mul (a b : Expr)
| sub (a b : Expr)
| as_vector (components : list Expr).

(** [dx], and [ds(i)] for [ds = Measure('ds', subdomain_data=boundaries)]. *)
Inductive Measure :=
| dx
| ds (subdomain_id : nat).

Inductive Form :=
| integral (integrand : Expr) (m : Measure)
| form_add (f g : Form).

(** A point as a Python function receives it: [x[0]], [x[1]], ... *)
Definition Coordinates := nat -> float.

(** What [DirichletBC] is given as its third argument: a function of the
    point, or of the point and [on_boundary]. *)
Inductive SubDomain :=
| inside (f : Coordinates -> bool)
| inside_on_boundary (f : Coordinates -> bool -> bool).

Record DirichletBC := {
  bc_space : Space;
  bc_value : Expr;
  bc_sub_domain : SubDomain
}.

Inductive PyValue :=
| PyStr (s : string)
| PyInt (n : nat).

Inductive Event :=
| xdmf_read (file : string)
| print (args : list PyValue)
| DirichletBC_created (bc : DirichletBC)
| Measure_created (name : string)
| Function_created (id : nat) (V : Space)
| rename (id : nat) (name label : string)
| solve (a L : Form) (u : nat) (bcs : list DirichletBC)
| xdmf_write (file : string) (u : nat).

Record World := {
  boundaries : list nat;
  functions : nat;
  trace : list Event
}.

Definition M (A : Type) : Type := World -> A * World.
Definition ret {A} (a : A) : M A := fun w => (a, w).
Definition bind {A B} (m : M A) (f : A -> M B) : M B :=
  fun w => let '(a, w') := m w in f a w'.

#[local] Notation "x <- m ;; k" := (bind m (fun x => k))
  (at level 100, m at next level, right associativity).
#[local] Notation "m ;; k" := (bind m (fun _ => k))
  (at level 100, right associativity).

Definition exec {A} (m : M A) (w : World) : World := snd (m w).

Definition call (e : Event) : M unit :=
  fun w => (tt, {| boundaries := boundaries w; functions := functions w;
                   trace := trace w ++ [e] |}).

(** [DirichletBC(V, value, sub_domain)]. *)
Definition new_DirichletBC (V : Space) (value : Expr) (sd : SubDomain) : M DirichletBC :=
  let bc := {| bc_space := V; bc_value := value; bc_sub_domain := sd |} in
  call (DirichletBC_created bc);; ret bc.

(** [Measure('ds', subdomain_data=boundaries)]: the measure reads the
    marker [boundaries] of the world it is used in; [ds(i)] selects the
    edges tagged [i]. *)
Definition new_Measure (name : string) : M (nat -> Measure) :=
  call (Measure_created name);; ret ds.

(** [Function(V)]: a fresh object. *)
Definition new_Function (V : Space) : M Expr :=
  fun w => (Function (functions w) V,
            {| boundaries := boundaries w; functions := S (functions w);
               trace := trace w ++ [Function_created (functions w) V] |}).

Definition function_id (f : Expr) : nat :=
  match f with Function id _ => id | _ => 0 end.

(** [boundaries = MeshFunction('size_t', mesh, 1, 0)]. *)
Definition new_MeshFunction (mesh : Mesh) (value : nat) : M unit :=
  fun w => (tt, {| boundaries := MeshFunction mesh value; functions := functions w;
                   trace := trace w |}).

(** One iteration of the marking loop. *)
Definition mark (ie : nat * Edge) : M unit :=
  fun w => (tt, {| boundaries := mark_edge (boundaries w) ie; functions := functions w;
                   trace := trace w |}).

Fixpoint for_each {A} (l : list A) (body : A -> M unit) : M unit :=
  match l with
  | [] => ret tt
  | a :: l' => body a;; for_each l' body
  end.

(** Lines 114-121. *)
Definition boundary0 (x : Coordinates) : bool := PrimFloat.eqb (x 0) 0.0.
Definition boundary1 (x : Coordinates) : bool := PrimFloat.eqb (x 0) 10.0.
Definition bound_bubble (x : Coordinates) (on_boundary : bool) : bool :=
  (PrimFloat.ltb 0.0 (x 0) && PrimFloat.ltb (x 0) 10.0
   && PrimFloat.ltb 0.0 (x 1) && PrimFloat.ltb (x 1) 1.0 && on_boundary)%bool.

(** What [xdmf.read(mesh)] delivers. *)
Record MeshFile := { num_cells : nat; mesh_edges : list Edge }.

(** Lines 89-141: the mesh, the space, the three boundary conditions. *)
Definition declarations (file : MeshFile) : M (DirichletBC * DirichletBC * DirichletBC) :=
  call (xdmf_read "2d.xdmf");;
  call (print [PyStr "Mesh has "; PyInt (num_cells file); PyStr " cells"]);;
  let V := FunctionSpace "Lagrange" 1 in
  let p0 := Expression "0" 2 in
  bc_bubble <- new_DirichletBC V p0 (inside_on_boundary bound_bubble);;
  let p1 := Constant (-50) in
  bc_left <- new_DirichletBC V p1 (inside boundary0);;
  let p2 := Constant 50 in
  bc_right <- new_DirichletBC V p2 (inside boundary1);;
  ret (bc_bubble, bc_left, bc_right).

(** Lines 166-172. *)
Definition marking (file : MeshFile) : M unit :=
  let mesh := mesh_edges file in
  new_MeshFunction mesh 0;;
  for_each (edges mesh) mark.

(** Lines 174-232: the measure, the pressure problem, its solve and
    output, the projection problem, its solve and output.  [V] is still the
    space of line 93; the second [solve] is called without a third
    argument, that is, without boundary conditions. *)
Definition solves : M unit :=
  let V := FunctionSpace "Lagrange" 1 in
  ds <- new_Measure "ds";;
  let U := ConstantVector [(-1.0)%float; 0.0%float; 0.0%float] in
  let n := FacetNormal in
  let p := TrialFunction V in
  let q := TestFunction V in
  let rhog := Constant 10.0 in
  let g := Expression "(x[0]-5.0)/5.0" 2 in
  let k := Expression "pow(x[1], 2)*(x[1] < 0.5) + pow(1.0-x[1], 2)*(x[1]>=0.5)" 2 in
  let a := integral (inner (mul k (grad p)) (grad q)) dx in
  let L := form_add (integral (mul (mul (mul k rhog) g) q) (ds 1))
                    (integral (mul (dot U n) q) (ds 2)) in
  p <- new_Function V;;
  call (rename (function_id p) "p" "p");;
  call (solve a L (function_id p) []);;
  call (xdmf_write "p.xdmf" (function_id p));;
  let V := VectorFunctionSpace "CG" 1 in
  let u := TrialFunction V in
  let v := TestFunction V in
  let a := integral (inner u v) dx in
  let L := integral (inner (mul k (sub (grad p) (as_vector [rhog; Num 0.0; Num 0.0]))) v) dx in
  u <- new_Function V;;
  call (rename (function_id u) "u" "u");;
  call (solve a L (function_id u) []);;
  call (xdmf_write "u.xdmf" (function_id u)).

Definition script (file : MeshFile) : M unit :=
  declarations file;; marking file;; solves.

Definition start : World := {| boundaries := []; functions := 0; trace := [] |}.

(** The [solve] calls of a trace, in order. *)
Definition solve_calls (t : list Event) : list Event :=
  List.filter (fun e => match e with solve _ _ _ _ => true | _ => false end) t.

(** The boundary conditions a trace records as built, in order. *)
Definition boundary_conditions (t : list Event) : list DirichletBC :=
  omap (fun e => match e with DirichletBC_created bc => Some bc | _ => None end) t.

(** An expression that depends on no point, function or argument. *)
Fixpoint is_constant (e : Expr) : bool :=
  match e with
  | Num _ | Constant _ | ConstantVector _ => true
  | as_vector components => forallb is_constant components
  | _ => false
  end.

Definition sample_file : MeshFile := {| num_cells := 4; mesh_edges := sample_mesh |}.

Example sample_run_boundaries :
  boundaries (exec (script sample_file) start) = [1; 2; 0; 0; 1].
Proof. reflexivity. Qed.

Lemma for_each_mark (l : list (nat * Edge)) (w : World) :
  for_each l mark w
  = (tt, {| boundaries := foldl mark_edge (boundaries w) l;
            functions := functions w; trace := trace w |}).
Proof.
  revert w. induction l as [|ie l IH]; intros w.
  - destruct w; reflexivity.
  - cbn [for_each]. unfold bind at 1. unfold mark at 1. rewrite IH. reflexivity.
Qed.

Lemma marking_spec (file : MeshFile) (w : World) :
  marking file w
  = (tt, {| boundaries := mark_boundaries (mesh_edges file);
            functions := functions w; trace := trace w |}).
Proof.
  unfold marking, bind, new_MeshFunction. rewrite for_each_mark. reflexivity.
Qed.

Lemma call_boundaries (e : Event) (w : World) :
  boundaries (exec (call e) w) = boundaries w.
Proof. reflexivity. Qed.

Lemma new_Measure_boundaries (name : string) (w : World) :
  boundaries (exec (new_Measure name) w) = boundaries w.
Proof. reflexivity. Qed.

Lemma new_Function_boundaries (V : Space) (w : World) :
  boundaries (exec (new_Function V) w) = boundaries w.
Proof. reflexivity. Qed.

Lemma new_DirichletBC_boundaries (V : Space) (value : Expr) (sd : SubDomain) (w : World) :
  boundaries (exec (new_DirichletBC V value sd) w) = boundaries w.
Proof. reflexivity. Qed.

Lemma solves_boundaries (w : World) : boundaries (exec solves w) = boundaries w.
Proof. reflexivity. Qed.

(** The whole run, from any world: the trace grows by the same events
    whatever the mesh holds, and the marker ends as the loop left it. *)
Lemma script_run (file : MeshFile) (w : World) :
  exec (script file) w
  = exec solves
      {| boundaries := mark_boundaries (mesh_edges file);
         functions := functions w;
         trace := trace (exec (declarations file) w) |}.
Proof.
  unfold script, exec, bind. 
  destruct (declarations file w) as [bcs w1] eqn:Hd.
  rewrite marking_spec.
  replace (functions w1) with (functions w)
    by (inversion Hd; reflexivity).
  reflexivity.
Qed.

(** The three boundary conditions of lines 134-141. *)
Definition bc_bubble : DirichletBC :=
  {| bc_space := FunctionSpace "Lagrange" 1; bc_value := Expression "0" 2;
     bc_sub_domain := inside_on_boundary bound_bubble |}.
Definition bc_left : DirichletBC :=
  {| bc_space := FunctionSpace "Lagrange" 1; bc_value := Constant (-50);
     bc_sub_domain := inside boundary0 |}.
Definition bc_right : DirichletBC :=
  {| bc_space := FunctionSpace "Lagrange" 1; bc_value := Constant 50;
     bc_sub_domain := inside boundary1 |}.

(** C3, as the script has it.  The script builds three independent
    Dirichlet conditions on the pressure space (value 0 on the part of the
    boundary strictly inside the rectangle, value -50 where [x[0] == 0],
    value 50 where [x[0] == 10]), and its first [solve] is called with the
    empty list of boundary conditions: none of the three is applied. *)
Theorem first_solve_gets_empty_bcs (file : MeshFile) :
  let t := trace (exec (script file) start) in
  boundary_conditions t = [bc_bubble; bc_left; bc_right] /\
  (forall x on_boundary,
     bound_bubble x on_boundary = true <->
     ((0.0 <? x 0%nat)%float = true /\ (x 0%nat <? 10.0)%float = true /\
      (0.0 <? x 1%nat)%float = true /\ (x 1%nat <? 1.0)%float = true /\ on_boundary = true)) /\
  (forall x, boundary0 x = true <-> (x 0%nat =? 0.0)%float = true) /\
  (forall x, boundary1 x = true <-> (x 0%nat =? 10.0)%float = true) /\
  exists a L u later, solve_calls t = solve a L u [] :: later.
Proof.
  cbv zeta. rewrite script_run.
  split; [reflexivity|]. split; [|split; [|split]].
  - intros x on_boundary. unfold bound_bubble. rewrite !andb_true_iff. tauto.
  - intros x. reflexivity.
  - intros x. reflexivity.
  - do 4 eexists. reflexivity.
Qed.

(** C3, as claimed, fails: on the sample mesh the first [solve] is not handed
    the three boundary conditions. *)
Lemma first_solve_not_given_three_bcs :
  ~ (exists a L u bcs later,
       solve_calls (trace (exec (script sample_file) start)) = solve a L u bcs :: later /\
       bc_bubble ∈ bcs /\ bc_left ∈ bcs /\ bc_right ∈ bcs).
Proof.
  intros (a & L & u & bcs & later & Hcalls & Hin & _).
  vm_compute in Hcalls. injection Hcalls as _ _ _ <- _.
  inversion Hin.
Qed.

(** C5.  The second [solve] is a call of its own, on the vector space
    [VectorFunctionSpace(mesh, "CG", 1)] and into a [Function] of its own;
    its bilinear form is the mass form [inner(u, v)*dx] and its linear form is
    [inner(k*(grad(p) - F), v)*dx], where [p] is the very [Function] the first
    [solve] wrote its solution to, [k] is the coefficient of the pressure
    problem, and [F = as_vector((rhog, 0.0, 0.0))] is constant. *)
Theorem second_solve_is_projection (file : MeshFile) :
  let V := FunctionSpace "Lagrange" 1 in
  let W := VectorFunctionSpace "CG" 1 in
  let k := Expression "pow(x[1], 2)*(x[1] < 0.5) + pow(1.0-x[1], 2)*(x[1]>=0.5)" 2 in
  let F := as_vector [Constant 10.0; Num 0.0; Num 0.0] in
  exists a1 L1 p_id u_id,
    solve_calls (trace (exec (script file) start))
    = [ solve a1 L1 p_id [];
        solve (integral (inner (TrialFunction W) (TestFunction W)) dx)
              (integral (inner (mul k (sub (grad (Function p_id V)) F)) (TestFunction W)) dx)
              u_id [] ] /\
    a1 = integral (inner (mul k (grad (TrialFunction V))) (grad (TestFunction V))) dx /\
    p_id <> u_id /\
    is_constant F = true.
Proof.
  cbv zeta. rewrite script_run.
  exists (integral (inner (mul (Expression "pow(x[1], 2)*(x[1] < 0.5) + pow(1.0-x[1], 2)*(x[1]>=0.5)" 2)
                               (grad (TrialFunction (FunctionSpace "Lagrange" 1))))
                          (grad (TestFunction (FunctionSpace "Lagrange" 1)))) dx).
  eexists. exists 0, 1.
  split; [reflexivity|]. split; [reflexivity|]. split; [discriminate | reflexivity].
Qed.

(** C9.  The marker is filled once, by the loop, from each edge's midpoint
    and incident-cell count; no call of the script before or after the loop
    writes to it, so from the end of the loop to the end of the run (the
    measure, the two solves, the two files) every edge keeps its tag. *)
Theorem boundaries_fixed_after_loop (file : MeshFile) :
  let after_loop := exec (declarations file;; marking file) start in
  boundaries after_loop = edge_tag <$> mesh_edges file /\
  (forall e w, boundaries (exec (call e) w) = boundaries w) /\
  (forall name w, boundaries (exec (new_Measure name) w) = boundaries w) /\
  (forall V w, boundaries (exec (new_Function V) w) = boundaries w) /\
  (forall w, boundaries (exec solves w) = boundaries w) /\
  exec (script file) start = exec solves after_loop /\
  boundaries (exec (script file) start) = boundaries after_loop.
Proof.
  cbv zeta.
  assert (Hloop : exec (declarations file;; marking file) start
                  = {| boundaries := mark_boundaries (mesh_edges file);
                       functions := 0;
                       trace := trace (exec (declarations file) start) |}).
  { unfold exec, bind.
    destruct (declarations file start) as [bcs w1] eqn:Hd.
    rewrite marking_spec. inversion Hd. reflexivity. }
  rewrite Hloop, script_run. cbn [boundaries functions start].
  repeat split.
  apply mark_boundaries_map.
Qed.

End Script.

(* ===================================================================== *)
(** ** The sub-domain functions                                           *)
(* ===================================================================== *)

(** Lines 114-121, [boundary0], [boundary1] and [bound_bubble], are
    embedded in [Script]; here they are compared with each other and with
    the tests of the marking loop, on binary64 floats. *)

Module Regions.
Import BoundaryTags Script.

(** A [Point] as the array a sub-domain function receives. *)
Definition coordinates (p : Point) : Coordinates :=
  fun i => match i with 0 => x p | 1 => y p | _ => 0%float end.

(** A boundary edge close to the wall [y = 0]. *)
Definition near_wall_edge : Edge :=
  {| midpoint := pt 5.0 0.05; num_entities_2 := 1 |}.

Lemma eqb_0_zero (v : float) :
  PrimFloat.eqb v 0.0 = true -> exists s, Prim2SF v = S754_zero s.
Proof.
  rewrite FloatAxioms.eqb_spec. change (Prim2SF 0.0) with (S754_zero false).
  unfold SFeqb, SFcompare.
  destruct (Prim2SF v) as [s|s| |s m e]; try destruct s; try discriminate; eauto.
Qed.

Lemma eqb_0_not_eqb_10 (v : float) :
  PrimFloat.eqb v 0.0 = true -> PrimFloat.eqb v 10.0 = false.
Proof.
  intros [s Hs]%eqb_0_zero. rewrite FloatAxioms.eqb_spec, Hs. reflexivity.
Qed.

Lemma gt_01_gt_0 (v : float) :
  PrimFloat.ltb 0.1 v = true -> PrimFloat.ltb 0.0 v = true.
Proof.
  rewrite !FloatAxioms.ltb_spec.
  change (Prim2SF 0.0) with (S754_zero false).
  change (Prim2SF 0.1) with (S754_finite false 7205759403792794 (-56)).
  unfold SFltb, SFcompare.
  destruct (Prim2SF v) as [s|s| |s m e]; try destruct s; congruence.
Qed.

Lemma lt_09_lt_1 (v : float) :
  PrimFloat.ltb v 0.9 = true -> PrimFloat.ltb v 1.0 = true.
Proof.
  rewrite !FloatAxioms.ltb_spec.
  change (Prim2SF 1.0) with (S754_finite false 4503599627370496 (-52)).
  change (Prim2SF 0.9) with (S754_finite false 8106479329266893 (-53)).
  unfold SFltb, SFcompare.
  destruct (Prim2SF v) as [s|s| |s m e]; try destruct s; try congruence.
  destruct (Z.compare_spec e (-53)) as [->|Hlt|Hgt]; try discriminate.
  - intros _. reflexivity.
  - intros _. destruct (Z.compare_spec e (-52)); first [lia | reflexivity].
Qed.


Lemma eqb_10_is_10 (v : float) : PrimFloat.eqb v 10.0 = true <-> v = 10.0%float.
Proof.
  split; [|intros ->; reflexivity].
  rewrite FloatAxioms.eqb_spec. intros H. apply Prim2SF_inj. revert H.
  change (Prim2SF 10.0) with (S754_finite false 5629499534213120 (-49)).
  unfold SFeqb, SFcompare.
  destruct (Prim2SF v) as [s|s| |s m e]; try destruct s; try discriminate.
  destruct (Z.compare_spec e (-49)) as [->|Hlt|Hgt]; try discriminate.
  destruct (Pos.compare_cont Eq m 5629499534213120) eqn:Hm; try discriminate.
  apply Pcompare_Eq_eq in Hm. now subst.
Qed.

Lemma eqb_0_is_zero (v : float) :
  PrimFloat.eqb v 0.0 = true <-> v = 0.0%float \/ v = (-0.0)%float.
Proof.
  split; [|intros [->| ->]; reflexivity].
  intros [[|] Hs]%eqb_0_zero; [right|left]; apply Prim2SF_inj; rewrite Hs; reflexivity.
Qed.

Lemma is_nan_spec (v : float) : is_nan v = true -> Prim2SF v = S754_nan.
Proof.
  unfold is_nan. rewrite FloatAxioms.eqb_spec. unfold SFeqb, SFcompare.
  destruct (Prim2SF v) as [s|s| |s m e]; try destruct s; try discriminate;
    try reflexivity; rewrite Z.compare_refl, Pcompare_refl; discriminate.
Qed.

Lemma nan_compares_false (v c : float) :
  is_nan v = true ->
  PrimFloat.eqb v c = false /\ PrimFloat.ltb v c = false /\ PrimFloat.ltb c v = false.
Proof.
  intros Hv%is_nan_spec.
  rewrite FloatAxioms.eqb_spec, !FloatAxioms.ltb_spec, Hv.
  unfold SFeqb, SFltb. repeat split; try reflexivity.
  destruct (Prim2SF c) as [s|s| |s m e]; reflexivity.
Qed.

(** X4.  No point lies in two of the three sub-domains of lines 114-121,
    whatever [on_boundary] is. *)
Theorem subdomains_disjoint (p : Coordinates) (on_boundary : bool) :
  (boundary0 p && boundary1 p = false)%bool
  /\ (boundary0 p && bound_bubble p on_boundary = false)%bool
  /\ (boundary1 p && bound_bubble p on_boundary = false)%bool.
Proof.
  unfold boundary0, boundary1, bound_bubble. repeat split.
  - destruct (PrimFloat.eqb (p 0) 0.0) eqn:H0; [|reflexivity].
    now rewrite (eqb_0_not_eqb_10 _ H0).
  - destruct (PrimFloat.eqb (p 0) 0.0) eqn:H0; [|reflexivity].
    now rewrite (x_is_0_not_gt_0 _ H0).
  - destruct (PrimFloat.eqb (p 0) 10.0) eqn:H10; [|reflexivity].
    rewrite (x_is_10_not_lt_10 _ H10). cbn. now rewrite andb_false_r.
Qed.

(** X5.  The two side tests are exact: [boundary0] holds for the two zeros of
    binary64 and for nothing else, [boundary1] for the float [10.0] only. *)
Theorem boundary_tests_exact (p : Coordinates) :
  (boundary0 p = true <-> p 0 = 0.0%float \/ p 0 = (-0.0)%float)
  /\ (boundary1 p = true <-> p 0 = 10.0%float).
Proof. split; [apply eqb_0_is_zero | apply eqb_10_is_10]. Qed.

(** X6.  The tags against the sub-domains: an edge is tagged 1 exactly when
    its midpoint is in [boundary0] or [boundary1], and an edge tagged 2 has
    its midpoint in [bound_bubble] (taken with [on_boundary] true). *)
Theorem tags_within_subdomains (mesh : Mesh) (i : nat) (edge : Edge) :
  mesh !! i = Some edge ->
  let p := coordinates (midpoint edge) in
  (mark_boundaries mesh !! i = Some 1 <-> boundary0 p = true \/ boundary1 p = true)
  /\ (mark_boundaries mesh !! i = Some 2 -> bound_bubble p true = true).
Proof.
  intros Hi p. rewrite (mark_boundaries_lookup _ _ _ Hi).
  pose proof (tags_exclusive edge) as Hex.
  unfold edge_tag. split.
  - change (boundary0 p = true \/ boundary1 p = true)
      with (PrimFloat.eqb (x (midpoint edge)) 0.0 = true
            \/ PrimFloat.eqb (x (midpoint edge)) 10.0 = true).
    rewrite <- orb_true_iff. fold (on_x0_or_x10 edge).
    destruct (on_bubble edge), (on_x0_or_x10 edge); intuition congruence.
  - destruct (on_bubble edge) eqn:Hb; [|destruct (on_x0_or_x10 edge); discriminate].
    intros _. unfold on_bubble in Hb. cbv zeta in Hb.
    rewrite !andb_true_iff in Hb. destruct Hb as [[[[_ Hx0] Hx10] Hy0] Hy1].
    unfold bound_bubble, p, coordinates.
    rewrite Hx0, Hx10, (gt_01_gt_0 _ Hy0), (lt_09_lt_1 _ Hy1). reflexivity.
Qed.

(** The theorem at the second edge of [sample_mesh]. *)
Lemma tags_within_subdomains_sample :
  sample_mesh !! 1 = Some {| midpoint := pt 5.0 0.5; num_entities_2 := 1 |}
  /\ bound_bubble (coordinates (pt 5.0 0.5)) true = true.
Proof.
  split; [reflexivity|].
  apply (tags_within_subdomains sample_mesh 1 _ eq_refl). reflexivity.
Defined.

(** The converse fails: [bound_bubble] is the larger region. *)
Example near_wall_edge_in_bound_bubble_untagged :
  bound_bubble (coordinates (midpoint near_wall_edge)) true = true
  /\ mark_boundaries [near_wall_edge] = [0].
Proof. split; reflexivity. Qed.

(** X7.  An edge whose midpoint has a NaN [x] fails every test and stays at 0;
    one whose midpoint has a NaN [y] is never tagged 2. *)
Theorem nan_midpoint_tags (mesh : Mesh) (i : nat) (edge : Edge) :
  mesh !! i = Some edge ->
  (is_nan (x (midpoint edge)) = true -> mark_boundaries mesh !! i = Some 0)
  /\ (is_nan (y (midpoint edge)) = true -> mark_boundaries mesh !! i <> Some 2).
Proof.
  intros Hi. rewrite (mark_boundaries_lookup _ _ _ Hi).
  unfold edge_tag, on_bubble, on_x0_or_x10. cbv zeta. split; intros Hnan.
  - destruct (nan_compares_false _ 0.0 Hnan) as (-> & _ & ->).
    destruct (nan_compares_false _ 10.0 Hnan) as (-> & _ & _).
    now rewrite andb_false_r.
  - destruct (nan_compares_false _ 0.1 Hnan) as (_ & _ & ->).
    rewrite andb_false_r. cbn.
    destruct (_ || _)%bool; discriminate.
Qed.

(** The theorem on a mesh of one edge. *)
Lemma nan_midpoint_tags_sample :
  [ {| midpoint := pt nan 0.5; num_entities_2 := 1 |} ] !! 0
    = Some {| midpoint := pt nan 0.5; num_entities_2 := 1 |}
  /\ mark_boundaries [ {| midpoint := pt nan 0.5; num_entities_2 := 1 |} ] !! 0 = Some 0.
Proof.
  split; [reflexivity|].
  apply (nan_midpoint_tags [ {| midpoint := pt nan 0.5; num_entities_2 := 1 |} ] 0 _ eq_refl).
  reflexivity.
Defined.

End Regions.

(* ===================================================================== *)
(** ** The boundary datum [g]                                             *)
(* ===================================================================== *)

(** Line 183 of the script:
<<
g = Expression("(x[0]-5.0)/5.0", degree=2)
>>
    like [k] a C++ formula evaluated in binary64; it enters the linear form
    of line 187 in the term over [ds(1)], the edges the loop tags 1. *)

Module BoundaryData.
Import Binary64 BoundaryTags Regions.
#[local] Open Scope float_scope.

Definition g (x0 x1 : float) : float := (x0 - 5.0) / 5.0.

(** Where rounding shows: [g] is not odd about [x0 = 5], and it does not
    tell 0 from the smallest positive float. *)
Example g_rounds :
  g (10.0 - 0.2) 0 <> - g 0.2 0 /\ g 0x1p-1074 0 = g 0 0.
Proof.
  split; [|vm_compute; reflexivity].
  intros E. apply (f_equal Prim2SF) in E. vm_compute in E. discriminate.
Qed.

Lemma zero_or_negative (w : float) :
  zero_or_signed true (Prim2SF w) -> (w <=? 0) = true.
Proof.
  rewrite leb_spec, Prim2SF_zero.
  destruct (Prim2SF w) as [s|s| |s m e]; cbn [zero_or_signed]; try contradiction;
    try (intros ->); reflexivity.
Qed.

Lemma zero_or_positive (w : float) :
  zero_or_signed false (Prim2SF w) -> (0 <=? w) = true.
Proof.
  rewrite leb_spec, Prim2SF_zero.
  destruct (Prim2SF w) as [s|s| |s m e]; cbn [zero_or_signed]; try contradiction;
    try (intros ->); reflexivity.
Qed.

(** X11.  [g] is -1 at [x0 = 0], 0 at [x0 = 5] and 1 at [x0 = 10]; up to
    [x0 = 5] it is zero or negative, from there on zero or positive; it is
    NaN for a NaN [x0] only. *)
Theorem g_ramp (x0 x1 : float) :
  (g 0 x1 = -1 /\ g 5 x1 = 0 /\ g 10 x1 = 1)
  /\ ((x0 <=? 5) = true -> (g x0 x1 <=? 0) = true)
  /\ ((5 <=? x0) = true -> (0 <=? g x0 x1) = true)
  /\ is_nan (g x0 x1) = is_nan x0.
Proof.
  split; [repeat split; vm_compute; reflexivity|].
  split; [|split].
  - intros Hle. apply zero_or_negative. unfold g.
    rewrite div_spec, sub_spec, Prim2SF_five.
    apply SFdiv_five_sign, SFsub_five_nonpos; [apply Prim2SF_valid|].
    rewrite <- Prim2SF_five, <- leb_spec. exact Hle.
  - intros Hle. apply zero_or_positive. unfold g.
    rewrite div_spec, sub_spec, Prim2SF_five.
    apply SFdiv_five_sign, SFsub_five_nonneg; [apply Prim2SF_valid|].
    rewrite <- Prim2SF_five, <- leb_spec. exact Hle.
  - rewrite !is_nan_Prim2SF. unfold g. rewrite div_spec, sub_spec, Prim2SF_five.
    destruct (Prim2SF x0) as [s|s| |s m e] eqn:E; [| |reflexivity|].
    all: match goal with |- context [SF64sub ?X SFfive] =>
           pose proof (SFdiv_five_not_nan (SF64sub X SFfive)
                         (SFsub_five_not_nan X ltac:(discriminate))) as H
         end; destruct (SF64div _ _); congruence.
Qed.

(** X16.  On the edges the loop tags 1, which make up [ds(1)], [g] at the
    midpoint is exactly -1 (on [x = 0]) or exactly 1 (on [x = 10]). *)
Theorem g_on_tagged_sides (mesh : Mesh) (i : nat) (edge : Edge) :
  mesh !! i = Some edge -> mark_boundaries mesh !! i = Some 1%nat ->
  let pt := midpoint edge in
  ((x pt =? 0.0) = true /\ g (x pt) (y pt) = -1)
  \/ ((x pt =? 10.0) = true /\ g (x pt) (y pt) = 1).
Proof.
  intros Hi Htag pt.
  rewrite (mark_boundaries_lookup _ _ _ Hi) in Htag. injection Htag as Htag.
  unfold edge_tag in Htag.
  destruct (on_bubble edge); [discriminate|].
  destruct (on_x0_or_x10 edge) eqn:Hside; [|discriminate].
  unfold on_x0_or_x10 in Hside. cbv zeta in Hside. fold pt in Hside.
  apply orb_true_iff in Hside as [H0|H10].
  - left. split; [exact H0|].
    apply eqb_0_is_zero in H0 as [-> | ->]; vm_compute; reflexivity.
  - right. split; [exact H10|].
    apply eqb_10_is_10 in H10 as ->. vm_compute. reflexivity.
Qed.

Lemma g_on_tagged_sides_sample :
  sample_mesh !! 0%nat = Some {| midpoint := BoundaryTags.pt 0.0 0.5; num_entities_2 := 1%nat |}
  /\ mark_boundaries sample_mesh !! 0%nat = Some 1%nat
  /\ g 0.0 0.5 = -1.
Proof.
  split; [reflexivity|]. split; [reflexivity|].
  destruct (g_on_tagged_sides sample_mesh 0%nat
              {| midpoint := BoundaryTags.pt 0.0 0.5; num_entities_2 := 1%nat |}
              eq_refl eq_refl) as [[_ H]|[H _]].
  - exact H.
  - vm_compute in H. discriminate.
Defined.

End BoundaryData.

(* ===================================================================== *)
(** ** The marking loop on any array and in any order                     *)
(* ===================================================================== *)

Module MarkingLoop.
Import BoundaryTags.

(** What an iteration for [edge] makes of the entry [tag] it finds. *)
Definition retag (edge : Edge) (tag : nat) : nat :=
  if on_bubble edge then 2 else if on_x0_or_x10 edge then 1 else tag.

Lemma lookup_insert_at {A} (l : list A) (i : nat) (v : A) :
  <[i := v]> l !! i = (fun _ => v) <$> l !! i.
Proof.
  destruct (l !! i) as [a|] eqn:Hl.
  - rewrite list_lookup_insert_eq by (eapply lookup_lt_Some; eauto). reflexivity.
  - rewrite list_insert_ge by (now apply lookup_ge_None). now rewrite Hl.
Qed.

Lemma mark_edge_lookup (b : list nat) (i j : nat) (edge : Edge) :
  mark_edge b (i, edge) !! j
  = if decide (i = j) then retag edge <$> b !! j else b !! j.
Proof.
  unfold mark_edge, retag.
  destruct (decide (i = j)) as [->|Hne].
  - destruct (on_x0_or_x10 edge), (on_bubble edge);
      rewrite ?lookup_insert_at; destruct (b !! j); reflexivity.
  - destruct (on_x0_or_x10 edge), (on_bubble edge);
      rewrite ?list_lookup_insert_ne by exact Hne; reflexivity.
Qed.

Lemma mark_edge_comm (b : list nat) (i j : nat) (e1 e2 : Edge) :
  i <> j ->
  mark_edge (mark_edge b (i, e1)) (j, e2) = mark_edge (mark_edge b (j, e2)) (i, e1).
Proof.
  intros Hne. apply list_eq. intros k. rewrite !mark_edge_lookup.
  destruct (decide (j = k)), (decide (i = k)); try congruence; reflexivity.
Qed.

(** A left fold does not depend on the order of a list any two of whose
    elements commute. *)
Lemma foldl_permutation_pairwise {A B} (f : B -> A -> B) (l1 l2 : list A) :
  l1 ≡ₚ l2 ->
  (forall a1 a2, a1 ∈ l1 -> a2 ∈ l1 -> forall b, f (f b a1) a2 = f (f b a2) a1) ->
  forall b, foldl f b l1 = foldl f b l2.
Proof.
  intros Hperm.
  induction Hperm as [|a l1 l2 _ IH|a1 a2 l|l1 l2 l3 H12 IH1 _ IH2]; intros Hcomm b.
  - reflexivity.
  - cbn. apply IH. intros a1 a2 H1 H2. apply Hcomm; now right.
  - cbn. rewrite (Hcomm a1 a2); [reflexivity | right; left | left].
  - rewrite IH1 by exact Hcomm. apply IH2.
    intros a1 a2 H1 H2. apply Hcomm; now rewrite H12.
Qed.

Lemma elem_of_edges (mesh : Mesh) (i : nat) (edge : Edge) :
  (i, edge) ∈ edges mesh <-> mesh !! i = Some edge.
Proof.
  unfold edges. rewrite elem_of_lookup_imap. split.
  - intros (j & e & [= -> ->] & H). exact H.
  - intros H. eauto.
Qed.

Lemma foldl_mark_lookup (mesh : Mesh) (b : list nat) (j : nat) :
  foldl mark_edge b (edges mesh) !! j
  = match mesh !! j with
    | Some edge => retag edge <$> b !! j
    | None => b !! j
    end.
Proof.
  unfold edges. induction mesh as [|e mesh IH] using rev_ind.
  - reflexivity.
  - rewrite imap_app, foldl_app. cbn [imap foldl]. rewrite mark_edge_lookup, IH.
    rewrite Nat.add_0_r.
    destruct (decide (length mesh = j)) as [<-|Hne].
    + rewrite lookup_app_r, Nat.sub_diag by lia. cbn.
      now rewrite (lookup_ge_None_2 mesh (length mesh)) by lia.
    + destruct (mesh !! j) as [edge|] eqn:Hj.
      * now rewrite (lookup_app_l_Some _ _ _ _ Hj).
      * apply lookup_ge_None in Hj. rewrite lookup_app_r by lia.
        destruct (j - length mesh) as [|k] eqn:Hk; [lia|]. reflexivity.
Qed.

Lemma length_mark_edge (b : list nat) (ie : nat * Edge) :
  length (mark_edge b ie) = length b.
Proof.
  destruct ie as [i edge]. unfold mark_edge.
  destruct (on_x0_or_x10 edge), (on_bubble edge); now rewrite ?length_insert.
Qed.

Lemma length_foldl_mark (l : list (nat * Edge)) (b : list nat) :
  length (foldl mark_edge b l) = length b.
Proof.
  revert b. induction l as [|ie l IH]; intros b; [reflexivity|].
  cbn [foldl]. now rewrite IH, length_mark_edge.
Qed.

(** X8.  The loop may visit the edges in any order: every order of
    [edges(mesh)] leaves the same marker. *)
Theorem marking_order_independent (mesh : Mesh) (visits : list (nat * Edge)) :
  visits ≡ₚ edges mesh ->
  foldl mark_edge (MeshFunction mesh 0) visits = mark_boundaries mesh.
Proof.
  intros Hperm. unfold mark_boundaries. symmetry.
  apply foldl_permutation_pairwise; [now symmetry|].
  intros [i e1] [j e2] H1 H2 b.
  destruct (decide (i = j)) as [->|Hne]; [|now apply mark_edge_comm].
  apply elem_of_edges in H1, H2. congruence.
Qed.

(** The theorem on [sample_mesh], visited backwards. *)
Lemma marking_order_independent_sample :
  reverse (edges sample_mesh) ≡ₚ edges sample_mesh
  /\ foldl mark_edge (MeshFunction sample_mesh 0) (reverse (edges sample_mesh))
     = [1; 2; 0; 0; 1].
Proof.
  split; [apply reverse_Permutation|].
  apply (marking_order_independent sample_mesh (reverse (edges sample_mesh))).
  apply reverse_Permutation.
Defined.

(** X9.  Run on any array, the loop writes 2 or 1 into the entries of the edges
    that pass a test and leaves every other entry, also one beyond the
    edges, as it found it; the array keeps its length. *)
Theorem marking_keeps_other_entries (mesh : Mesh) (b : list nat) :
  length (foldl mark_edge b (edges mesh)) = length b
  /\ forall j,
       foldl mark_edge b (edges mesh) !! j
       = match mesh !! j, b !! j with
         | Some edge, Some tag =>
             Some (if on_bubble edge then 2 else if on_x0_or_x10 edge then 1 else tag)
         | _, entry => entry
         end.
Proof.
  split; [apply length_foldl_mark|].
  intros j. rewrite foldl_mark_lookup.
  destruct (mesh !! j), (b !! j); reflexivity.
Qed.

(** X10.  Running the loop once more on the marker it produced changes
    nothing. *)
Theorem marking_idempotent (mesh : Mesh) :
  foldl mark_edge (mark_boundaries mesh) (edges mesh) = mark_boundaries mesh.
Proof.
  apply list_eq. intros j. rewrite foldl_mark_lookup, mark_boundaries_map.
  rewrite list_lookup_fmap.
  destruct (mesh !! j) as [edge|]; [|reflexivity]. cbn.
  unfold retag, edge_tag.
  destruct (on_bubble edge), (on_x0_or_x10 edge); reflexivity.
Qed.

End MarkingLoop.

(* ===================================================================== *)
(** ** The assemble-and-solve pipeline                                    *)
(* ===================================================================== *)

(** [solve(a == L, u, bcs)] hands the two forms to DOLFIN, which assembles
    a sparse linear system cell by cell, applies the boundary conditions
    and solves.  None of that code is in the repository; the script only
    calls it.  This module states the pipeline as the specification
    describes it (its sections 4.2 to 4.7), over exact rationals in place
    of binary64 numbers, so that the algebra of assembly and of the solve
    can be run and reasoned about without rounding. *)

Module Pipeline.
#[local] Open Scope Qc_scope.

(** Modelled from the spec: the error taxonomy of the pipeline (section 7),
    which DOLFIN raises and the repository does not define. *)
Inductive Error :=
| MeshLoadError
| AssemblyError
| SingularSystemError
| ConvergenceError.

Definition q (num : Z) (den : positive) : Qc := Q2Qc (num # den).

Fixpoint total (l : list Qc) : Qc :=
  match l with
  | [] => 0
  | a :: l' => a + total l'
  end.

Fixpoint dot (u v : list Qc) : Qc :=
  match u, v with
  | a :: u', b :: v' => a * b + dot u' v'
  | _, _ => 0
  end.

(** *** The linear solver *)

(** An equation: its coefficients and its right-hand side. *)
Definition Row : Type := list Qc * Qc.

Definition lead (r : Row) : Qc :=
  match fst r with a :: _ => a | [] => 0 end.

Definition rest (r : Row) : list Qc := tail (fst r).

(** The first equation whose leading coefficient is not zero, and the
    other equations. *)
Fixpoint find_pivot (rows : list Row) : option (Row * list Row) :=
  match rows with
  | [] => None
  | r :: rows' =>
      if decide (lead r = 0)
      then match find_pivot rows' with
           | Some (p, others) => Some (p, r :: others)
           | None => None
           end
      else Some (r, rows')
  end.

(** Equation [r] with the first unknown eliminated by means of [p]. *)
Definition reduce (p r : Row) : Row :=
  let f := lead r / lead p in
  (zip_with (fun a b => a - f * b) (rest r) (rest p), snd r - f * snd p).

Definition back_substitute (p : Row) (xs : list Qc) : Qc :=
  (snd p - dot (rest p) xs) / lead p.

#[local] Arguments reduce : simpl never.
#[local] Arguments back_substitute : simpl never.

(** Modelled from the spec: the Linear Solver (section 4.6), DOLFIN's in the
    script and absent from the repository.  "Direct factorization is
    acceptable": Gaussian elimination on [n] unknowns, one unknown per
    step; it "fails with SingularSystemError if the matrix is structurally
    singular", here when no equation is left to pivot on. *)
Fixpoint eliminate (n : nat) (rows : list Row) : Error + list Qc :=
  match n with
  | O => inr []
  | S n' =>
      match find_pivot rows with
      | None => inl SingularSystemError
      | Some (p, others) =>
          match eliminate n' (map (reduce p) others) with
          | inl e => inl e
          | inr xs => inr (back_substitute p xs :: xs)
          end
      end
  end.

Definition shaped (n : nat) (rows : list Row) : Prop :=
  Forall (fun r => length (fst r) = n) rows.

Definition satisfies (xs : list Qc) (r : Row) : Prop := dot (fst r) xs = snd r.
Definition annihilates (v : list Qc) (r : Row) : Prop := dot (fst r) v = 0.

(** *** The assembler *)

(** Modelled from the spec: the Sparse Linear System (section 3), a matrix
    and a vector indexed by degrees of freedom; an entry that was never
    written is zero. *)
Abbreviation Matrix := (gmap (nat * nat) Qc).
Abbreviation Vector := (gmap nat Qc).

Definition entry (A : Matrix) (i j : nat) : Qc := default 0 (A !! (i, j)).
Definition component (b : Vector) (i : nat) : Qc := default 0 (b !! i).

(** Modelled from the spec: the additive scatter of the Assembler (section
    4.4), "accumulate (add) each local entry into the corresponding global
    matrix/vector entry". *)
Definition add_entry (A : Matrix) (t : nat * nat * Qc) : Matrix :=
  let '(i, j, v) := t in <[(i, j) := entry A i j + v]> A.

Definition add_component (b : Vector) (t : nat * Qc) : Vector :=
  let '(i, v) := t in <[i := component b i + v]> b.

(** The entries of a local matrix, each with the global row and column its
    local row and column map to. *)
Definition matrix_contributions (dofs : list nat) (local : list (list Qc))
  : list (nat * nat * Qc) :=
  zip dofs local ≫= fun '(i, row) => (fun '(j, v) => (i, j, v)) <$> zip dofs row.

Definition vector_contributions (dofs : list nat) (local : list Qc) : list (nat * Qc) :=
  zip dofs local.

(** The entry of a local matrix at a local row and column. *)
Definition local_entry (local : list (list Qc)) (a b : nat) : Qc :=
  default 0 (local !! a ≫= fun row => row !! b).

Section Assembler.
Context {Cell : Type}.

(** Modelled from the spec: [local_to_global] of the Function Space
    (section 4.2), the degrees of freedom of a cell in local order. *)
Variable local_to_global : Cell -> list nat.

Definition scatter_matrix (local_matrix : Cell -> list (list Qc))
    (A : Matrix) (c : Cell) : Matrix :=
  foldl add_entry A (matrix_contributions (local_to_global c) (local_matrix c)).

Definition scatter_vector (local_vector : Cell -> list Qc)
    (b : Vector) (c : Cell) : Vector :=
  foldl add_component b (vector_contributions (local_to_global c) (local_vector c)).

(** Modelled from the spec: [assemble] of the Assembler (section 4.4),
    DOLFIN's in the script and absent from the repository: "for each
    cell, obtain the local contribution from the Form Evaluator, obtain
    the local-to-global DOF map from the Function Space, and accumulate".
    A form enters as what the Form Evaluator returns for it on each cell
    ([local_matrix], [local_vector]); the cells are visited in list
    order. *)
Definition assemble_matrix (local_matrix : Cell -> list (list Qc))
    (cells : list Cell) : Matrix :=
  foldl (scatter_matrix local_matrix) ∅ cells.

Definition assemble_vector (local_vector : Cell -> list Qc)
    (cells : list Cell) : Vector :=
  foldl (scatter_vector local_vector) ∅ cells.

(** Modelled from the spec: what the additive scatter of section 4.4 is to
    leave in the entry [(i, j)], "entries from different cells sharing a
    DOF are summed": the sum, over all cells and all local rows [a] and
    columns [b] of a cell that the cell's map sends to [i] and [j], of the
    local entry at [(a, b)]. *)
Definition summed_entries (local_matrix : Cell -> list (list Qc))
    (cells : list Cell) (i j : nat) : Qc :=
  total ((fun c =>
    total ((fun a =>
      total ((fun b =>
        if decide (local_to_global c !! a = Some i /\ local_to_global c !! b = Some j)
        then local_entry (local_matrix c) a b else 0)
        <$> seq 0 (length (local_to_global c))))
      <$> seq 0 (length (local_to_global c))))
    <$> cells).

(** Modelled from the spec: the same for the vector. *)
Definition summed_components (local_vector : Cell -> list Qc)
    (cells : list Cell) (i : nat) : Qc :=
  total ((fun c =>
    total ((fun a =>
      if decide (local_to_global c !! a = Some i)
      then default 0 (local_vector c !! a) else 0)
      <$> seq 0 (length (local_to_global c))))
    <$> cells).

(** What lands on the entry [(i, j)] from one cell. *)
Definition landing (local_matrix : Cell -> list (list Qc)) (c : Cell) (i j : nat) : Qc :=
  total ((fun t : nat * nat * Qc => if decide ((t.1.1, t.1.2) = (i, j)) then t.2 else 0)
           <$> matrix_contributions (local_to_global c) (local_matrix c)).
End Assembler.

(** *** Boundary conditions and the variational solve *)

(** Modelled from the spec: the Boundary Condition Enforcer (section 4.5),
    by row replacement: "zero row i of the matrix except the diagonal (set
    to 1), set b[i] = v_i"; conditions are applied in list order, so the
    last one on a degree of freedom wins. *)
Definition apply_constraint (Ab : Matrix * Vector) (c : nat * Qc) : Matrix * Vector :=
  let '(i, v) := c in
  (<[(i, i) := 1]> (filter (fun kv : nat * nat * Qc => kv.1.1 <> i) Ab.1),
   <[i := v]> Ab.2).

Definition enforce (constraints : list (nat * Qc)) (Ab : Matrix * Vector)
  : Matrix * Vector :=
  foldl apply_constraint Ab constraints.

(** The [n] equations of the system, each with its [n] coefficients. *)
Definition dense_rows (n : nat) (A : Matrix) (b : Vector) : list Row :=
  (fun i => (entry A i <$> seq 0 n, component b i)) <$> seq 0 n.

(** Modelled from the spec: [solve(A, b)] of the Linear Solver (section
    4.6). *)
Definition solve (n : nat) (A : Matrix) (b : Vector) : Error + list Qc :=
  eliminate n (dense_rows n A b).

(** Modelled from the spec: the control flow of section 2, "Assembler ->
    Boundary Condition Enforcer -> Linear Solver -> Solution Field", which
    is what DOLFIN's [solve(a == L, u, bcs)] does with the forms.  The
    result holds the solution's value at each degree of freedom. *)
Definition variational_solve {Cell : Type} (local_to_global : Cell -> list nat)
    (dof_count : nat)
    (local_matrix : Cell -> list (list Qc)) (local_vector : Cell -> list Qc)
    (cells : list Cell) (constraints : list (nat * Qc)) : Error + list Qc :=
  let A := assemble_matrix local_to_global local_matrix cells in
  let b := assemble_vector local_to_global local_vector cells in
  let '(A, b) := enforce constraints (A, b) in
  solve dof_count A b.

(** The fractions a result holds. *)
Definition fractions (r : Error + list Qc) : Error + list Q :=
  match r with
  | inl e => inl e
  | inr xs => inr (this <$> xs)
  end.

(** Row [i] of [A] applied to the vector with components [y]. *)
Definition apply_row (n : nat) (A : Matrix) (y : nat -> Qc) (i : nat) : Qc :=
  total ((fun j => entry A i j * y j) <$> seq 0 n).

(** What one cell adds to row [i] of the product with [y]. *)
Definition cell_action (dofs : list nat) (local : list (list Qc))
    (y : nat -> Qc) (i : nat) : Qc :=
  total ((fun t : nat * nat * Qc => if decide (t.1.1 = i) then t.2 * y t.1.2 else 0)
           <$> matrix_contributions dofs local).

(** *** Properties of forms, read off their local matrices *)

(** Modelled from the spec: a pure-Neumann form, one "leaving a null space
    of constant functions" (section 4.6).  The trial function enters such a
    form through its gradient only, so every local matrix maps the
    constants to zero: its rows, as long as the cell has degrees of
    freedom, each sum to zero. *)
Definition annihilates_constants (dofs : list nat) (local : list (list Qc)) : Prop :=
  Forall (fun row => length row = length dofs /\ total row = 0) local.

(** Modelled from the spec: the local vector the Form Evaluator returns
    for [inner(f, v)*dx] when the field [f] lies in the trial space
    (section 4.7, section 8).  Such an [f] is the sum of the basis
    functions weighted by its values [field], so by linearity of the
    integral its local vector is the local matrix of [inner(u, v)*dx]
    applied to the values at the cell's degrees of freedom. *)
Definition load_of_field {Cell : Type} (local_to_global : Cell -> list nat)
    (local_matrix : Cell -> list (list Qc)) (field : nat -> Qc) (c : Cell) : list Qc :=
  (fun row => dot row (field <$> local_to_global c)) <$> local_matrix c.

(** The quadratic form of a local matrix at the values [y]. *)
Definition quadratic_form (dofs : list nat) (local : list (list Qc)) (y : nat -> Qc) : Qc :=
  total ((fun t : nat * nat * Qc => y t.1.1 * (t.2 * y t.1.2))
           <$> matrix_contributions dofs local).

(** The local matrix of a mass form: the integral of the square of a
    function of the local space, which is positive unless the function is
    zero. *)
Definition positive_definite (dofs : list nat) (local : list (list Qc)) : Prop :=
  forall y : nat -> Qc,
    0 <= quadratic_form dofs local y
    /\ (quadratic_form dofs local y = 0 -> Forall (fun d => y d = 0) dofs).

(** *** First-order Lagrange elements on triangles *)

(** The spaces of the script are [FunctionSpace(mesh, "Lagrange", 1)] and
    its vector counterpart: one degree of freedom per vertex (and
    component), three per triangle. *)
Record Vertex := { vx : Qc; vy : Qc }.
Record P1Cell := { v0 : Vertex; v1 : Vertex; v2 : Vertex; d0 : nat; d1 : nat; d2 : nat }.

Definition p1_dofs (c : P1Cell) : list nat := [d0 c; d1 c; d2 c].

(** Twice the signed area. *)
Definition det (c : P1Cell) : Qc :=
  (vx (v1 c) - vx (v0 c)) * (vy (v2 c) - vy (v0 c))
  - (vx (v2 c) - vx (v0 c)) * (vy (v1 c) - vy (v0 c)).

Definition abs (a : Qc) : Qc := if Qclt_le_dec a 0 then - a else a.

(** The gradients of the three basis functions, times [det]. *)
Definition gradients (c : P1Cell) : list (Qc * Qc) :=
  [ (vy (v1 c) - vy (v2 c), vx (v2 c) - vx (v1 c));
    (vy (v2 c) - vy (v0 c), vx (v0 c) - vx (v2 c));
    (vy (v0 c) - vy (v1 c), vx (v1 c) - vx (v0 c)) ].

Definition edge_midpoint (a b : Vertex) : Vertex :=
  {| vx := (vx a + vx b) / q 2 1; vy := (vy a + vy b) / q 2 1 |}.

(** The mean of a coefficient over the cell, by the edge-midpoint rule
    (exact for the degree 2 the script declares for [k]). *)
Definition cell_average (f : Qc -> Qc -> Qc) (c : P1Cell) : Qc :=
  let value v := f (vx v) (vy v) in
  (value (edge_midpoint (v0 c) (v1 c)) + value (edge_midpoint (v1 c) (v2 c))
   + value (edge_midpoint (v2 c) (v0 c))) / q 3 1.

(** Modelled from the spec: the Form Evaluator (section 4.3), DOLFIN's in
    the script and absent from the repository, on the bilinear form of
    line 186, [inner(k*grad(p), grad(q))*dx]: the coefficient at the
    quadrature points, the gradients of the basis functions through the
    cell's geometric map. *)
Definition p1_stiffness (coefficient : Qc -> Qc -> Qc) (c : P1Cell) : list (list Qc) :=
  let w := cell_average coefficient c / (q 2 1 * abs (det c)) in
  (fun gi : Qc * Qc =>
     (fun gj : Qc * Qc => w * (gi.1 * gj.1 + gi.2 * gj.2)) <$> gradients c)
  <$> gradients c.

(** Modelled from the spec: the Form Evaluator (section 4.3) on the
    bilinear form of line 223, [inner(u, v)*dx], for one component. *)
Definition p1_mass (c : P1Cell) : list (list Qc) :=
  let w := abs (det c) / q 24 1 in
  [ [w + w; w; w]; [w; w + w; w]; [w; w; w + w] ].

(** The coefficient of line 184 at a rational point. *)
Definition kQc (x0 x1 : Qc) : Qc := Q2Qc (Coefficient.kQ x0 x1).

Definition vertex (x y : Z) : Vertex := {| vx := q x 1; vy := q y 1 |}.

Definition p1_cell (i0 i1 i2 : nat) (a b c : Vertex) : P1Cell :=
  {| v0 := a; v1 := b; v2 := c; d0 := i0; d1 := i1; d2 := i2 |}.

(** A sample mesh: the rectangle [[0,10] x [0,1]] with a column of vertices
    at [x = 5], cut into four triangles; six degrees of freedom, one per
    vertex, numbered counterclockwise from the origin. *)
Definition channel_vertices : list Vertex :=
  [ vertex 0 0; vertex 5 0; vertex 10 0; vertex 10 1; vertex 5 1; vertex 0 1 ].

Definition channel : list P1Cell :=
  let A := vertex 0 0 in let B := vertex 5 0 in let C := vertex 10 0 in
  let D := vertex 10 1 in let E := vertex 5 1 in let F := vertex 0 1 in
  [ p1_cell 0 1 4 A B E; p1_cell 0 4 5 A E F; p1_cell 1 2 3 B C D; p1_cell 1 3 4 B D E ].

Definition no_load (c : P1Cell) : list Qc := [0; 0; 0].

(** The field [-50 + 100*x/10] at the vertices of [channel]. *)
Definition ramp (d : nat) : Qc :=
  match channel_vertices !! d with
  | Some v => q (-50) 1 + q 100 1 * vx v / q 10 1
  | None => 0
  end.

Example channel_stiffness_entries :
  entry (assemble_matrix p1_dofs (p1_stiffness (fun _ _ => 1)) channel) 1 1 = q 26 5
  /\ entry (assemble_matrix p1_dofs (p1_stiffness (fun _ _ => 1)) channel) 1 4 = q (-5) 1
  /\ entry (assemble_matrix p1_dofs (p1_stiffness (fun _ _ => 1)) channel) 0 2 = 0.
Proof. repeat split; apply Qc_is_canon; vm_compute; reflexivity. Qed.

(** With the coefficient 1, the value -50 prescribed on [x = 0] and 50 on
    [x = 10], the pipeline returns the ramp. *)
Example channel_dirichlet_is_ramp :
  fractions
    (variational_solve p1_dofs 6 (p1_stiffness (fun _ _ => 1)) no_load channel
       [(0, q (-50) 1); (5, q (-50) 1); (2, q 50 1); (3, q 50 1)]%nat)
  = fractions (inr (ramp <$> seq 0 6)).
Proof. vm_compute. reflexivity. Qed.

(** The pressure form of the script, with its own [k] and no boundary
    condition, on the sample mesh. *)
Example channel_pressure_without_bcs :
  variational_solve p1_dofs 6 (p1_stiffness kQc) no_load channel []
  = inl SingularSystemError.
Proof. vm_compute. reflexivity. Qed.

(** *** Facts about the solver *)

Lemma find_pivot_None rows :
  find_pivot rows = None -> Forall (fun r => lead r = 0) rows.
Proof.
  induction rows as [|r rows IH]; simpl; [constructor|].
  destruct (decide (lead r = 0)) as [Hz|Hz]; [|discriminate].
  destruct (find_pivot rows) as [[p others]|]; [discriminate|].
  intros _. constructor; auto.
Qed.

Lemma find_pivot_Some rows p others :
  find_pivot rows = Some (p, others) -> lead p <> 0 /\ rows ≡ₚ p :: others.
Proof.
  revert p others. induction rows as [|r rows IH]; simpl; [discriminate|].
  intros p others.
  destruct (decide (lead r = 0)) as [Hz|Hz].
  - destruct (find_pivot rows) as [[p' others']|]; [|discriminate].
    intros [= <- <-]. destruct (IH _ _ eq_refl) as [Hp Hperm].
    split; [exact Hp|]. rewrite Hperm. apply Permutation_swap.
  - intros [= <- <-]. split; [exact Hz | reflexivity].
Qed.

Lemma row_cons n (r : Row) :
  length (fst r) = S n -> fst r = lead r :: rest r /\ length (rest r) = n.
Proof.
  unfold lead, rest. destruct (fst r) as [|a u]; simpl; [discriminate|].
  intros [= H]. auto.
Qed.

Lemma dot_reduce f (u w v : list Qc) :
  length u = length v -> length w = length v ->
  dot (zip_with (fun a b => a - f * b) u w) v = dot u v - f * dot w v.
Proof.
  revert w v. induction u as [|a u IH]; intros [|b w] [|c v]; simpl; try discriminate;
    intros Hu Hw; try ring.
  rewrite IH by congruence. ring.
Qed.

Lemma length_reduce n p r :
  length (fst p) = S n -> length (fst r) = S n -> length (fst (reduce p r)) = n.
Proof.
  intros [_ Hp]%row_cons [_ Hr]%row_cons. unfold reduce. simpl.
  rewrite length_zip_with. lia.
Qed.

Lemma shaped_reduce n p others :
  length (fst p) = S n -> shaped (S n) others -> shaped n (map (reduce p) others).
Proof.
  intros Hp Ho. unfold shaped in *. rewrite Forall_map.
  eapply Forall_impl; [exact Ho|]. intros r Hr. simpl. now apply length_reduce.
Qed.


Lemma sum_zero_opp (a b : Qc) : a + b = 0 -> b = - a.
Proof. intros H. replace b with ((a + b) - a) by ring. rewrite H. ring. Qed.

Lemma sub_eq_add (a b c : Qc) : a - b = c -> a = c + b.
Proof. intros <-. ring. Qed.

Lemma dot_cons_row n (r : Row) (v0 : Qc) (v : list Qc) :
  length (fst r) = S n -> dot (fst r) (v0 :: v) = lead r * v0 + dot (rest r) v.
Proof. intros [-> _]%row_cons. reflexivity. Qed.

Lemma dot_zeros (u : list Qc) (n : nat) : dot u (replicate n 0) = 0.
Proof.
  revert n. induction u as [|a u IH]; intros [|n]; simpl; try reflexivity.
  rewrite IH. ring.
Qed.

Lemma dot_reduced n p r (v : list Qc) :
  length (fst p) = S n -> length (fst r) = S n -> length v = n ->
  dot (fst (reduce p r)) v = dot (rest r) v - lead r / lead p * dot (rest p) v.
Proof.
  intros [_ Hp]%row_cons [_ Hr]%row_cons Hv. unfold reduce. simpl.
  apply dot_reduce; congruence.
Qed.

(** A system with a nonzero solution of its homogeneous equations is
    reported singular. *)
Lemma eliminate_singular n : forall rows v,
  shaped n rows -> length v = n ->
  Forall (annihilates v) rows -> ~ Forall (fun a => a = 0) v ->
  eliminate n rows = inl SingularSystemError.
Proof.
  induction n as [|n IH]; intros rows v Hshape Hlen Hker Hnz.
  - destruct v; [|discriminate]. exfalso. apply Hnz. constructor.
  - destruct v as [|v0 v]; [discriminate|]. injection Hlen as Hlen.
    simpl. destruct (find_pivot rows) as [[p others]|] eqn:Hpiv; [|reflexivity].
    apply find_pivot_Some in Hpiv as [Hp Hperm].
    unfold shaped in Hshape. rewrite Hperm in Hshape, Hker.
    apply Forall_cons in Hshape as [Hsp Hso].
    apply Forall_cons in Hker as [Hkp Hko].
    rewrite (IH (map (reduce p) others) v); [reflexivity | | exact Hlen | |].
    + now apply shaped_reduce.
    + rewrite Forall_map. rewrite Forall_forall in Hko, Hso. apply Forall_forall.
      intros r Hr. unfold annihilates, compose in *.
      rewrite (dot_reduced n) by auto.
      specialize (Hko r Hr). rewrite (dot_cons_row n) in Hko by auto.
      rewrite (dot_cons_row n) in Hkp by auto.
      rewrite (sum_zero_opp _ _ Hko), (sum_zero_opp _ _ Hkp).
      field. exact Hp.
    + intros Hv. apply Hnz. constructor; [|exact Hv].
      unfold annihilates in Hkp. rewrite (dot_cons_row n) in Hkp by auto.
      assert (Hz : dot (rest p) v = 0).
      { clear -Hv. revert Hv. generalize (rest p). induction v as [|a v IHv]; intros u Hv.
        - destruct u; reflexivity.
        - apply Forall_cons in Hv as [-> Hv]. destruct u as [|b u]; simpl; [reflexivity|].
          rewrite IHv by exact Hv. ring. }
      rewrite Hz in Hkp.
      rewrite Qcplus_0_r in Hkp.
      destruct (Qcmult_integral _ _ Hkp) as [H|H]; [contradiction | exact H].
Qed.

(** What elimination returns solves every equation. *)
Lemma eliminate_sound n : forall rows xs,
  shaped n rows -> (length rows <= n)%nat ->
  eliminate n rows = inr xs ->
  length xs = n /\ Forall (satisfies xs) rows.
Proof.
  induction n as [|n IH]; intros rows xs Hshape Hlen.
  - simpl. intros [= <-]. destruct rows; [|simpl in Hlen; lia]. split; [reflexivity | constructor].
  - simpl. destruct (find_pivot rows) as [[p others]|] eqn:Hpiv; [|discriminate].
    apply find_pivot_Some in Hpiv as [Hp Hperm].
    unfold shaped in Hshape. rewrite Hperm in Hshape.
    apply Forall_cons in Hshape as [Hsp Hso].
    assert (Hlo : (length (map (reduce p) others) <= n)%nat).
    { rewrite length_map. apply Permutation_length in Hperm. simpl in Hperm. lia. }
    destruct (eliminate n (map (reduce p) others)) as [e|ys] eqn:Hrec; [discriminate|].
    intros [= <-].
    destruct (IH _ _ (shaped_reduce n p others Hsp Hso) Hlo Hrec) as [Hly Hsat].
    split; [simpl; congruence|].
    rewrite Hperm.
    assert (Hpsat : satisfies (back_substitute p ys :: ys) p).
    { unfold satisfies. rewrite (dot_cons_row n) by exact Hsp.
      unfold back_substitute. field. exact Hp. }
    constructor; [exact Hpsat|].
    rewrite Forall_map in Hsat. rewrite Forall_forall in Hsat, Hso. apply Forall_forall.
    intros r Hr. specialize (Hsat r Hr). unfold satisfies, compose in *.
    rewrite (dot_reduced n) in Hsat by auto.
    change (snd (reduce p r)) with (snd r - lead r / lead p * snd p) in Hsat.
    rewrite (dot_cons_row n) in Hpsat |- * by auto.
    rewrite (sub_eq_add _ _ _ Hsat), <- Hpsat.
    field. exact Hp.
Qed.

(** A system whose homogeneous equations have only the zero solution is
    solved. *)
Lemma eliminate_total n : forall rows,
  shaped n rows -> length rows = n ->
  (forall v, length v = n -> Forall (annihilates v) rows -> Forall (fun a => a = 0) v) ->
  exists xs, eliminate n rows = inr xs.
Proof.
  induction n as [|n IH]; intros rows Hshape Hlen Hker.
  - exists []. reflexivity.
  - simpl. destruct (find_pivot rows) as [[p others]|] eqn:Hpiv.
    + apply find_pivot_Some in Hpiv as [Hp Hperm].
      pose proof Hshape as Hshape'. unfold shaped in Hshape'. rewrite Hperm in Hshape'.
      apply Forall_cons in Hshape' as [Hsp Hso].
      destruct (IH (map (reduce p) others)) as [ys Hys].
      * now apply shaped_reduce.
      * rewrite length_map. apply Permutation_length in Hperm. simpl in Hperm. lia.
      * intros v Hv Hann.
        assert (H0 : Forall (fun a => a = 0) (- dot (rest p) v / lead p :: v)).
        { apply Hker; [simpl; congruence|]. rewrite Hperm. constructor.
          - unfold annihilates. rewrite (dot_cons_row n) by exact Hsp. field. exact Hp.
          - rewrite Forall_map in Hann. rewrite Forall_forall in Hann, Hso.
            apply Forall_forall. intros r Hr. specialize (Hann r Hr).
            unfold annihilates, compose in *.
            rewrite (dot_reduced n) in Hann by auto.
            rewrite (dot_cons_row n) by auto.
            rewrite (sub_eq_add _ _ _ Hann).
            field. exact Hp. }
        now apply Forall_cons in H0 as [_ H0].
      * rewrite Hys. eauto.
    + exfalso. apply find_pivot_None in Hpiv.
      assert (H0 : Forall (fun a => a = 0) (1 :: replicate n 0)).
      { apply Hker; [simpl; now rewrite length_replicate|].
        unfold shaped in Hshape. rewrite Forall_forall in Hpiv, Hshape. apply Forall_forall.
        intros r Hr. unfold annihilates.
        rewrite (dot_cons_row n) by auto. rewrite Hpiv by exact Hr.
        rewrite dot_zeros. ring. }
      apply Forall_cons in H0 as [H1 _]. discriminate H1.
Qed.


(** *** Facts about sums *)

Lemma total_app (l1 l2 : list Qc) : total (l1 ++ l2) = total l1 + total l2.
Proof. induction l1 as [|a l1 IH]; cbn [total app]; [ring | rewrite IH; ring]. Qed.

Lemma total_bind {A B} (f : B -> Qc) (g : A -> list B) (l : list A) :
  total (f <$> (l ≫= g)) = total ((fun a => total (f <$> g a)) <$> l).
Proof.
  induction l as [|a l IH]; [reflexivity|].
  rewrite bind_cons, fmap_app, total_app, IH, fmap_cons. reflexivity.
Qed.

Lemma total_ext {A} (f g : A -> Qc) (l : list A) :
  (forall a, a ∈ l -> f a = g a) -> total (f <$> l) = total (g <$> l).
Proof.
  induction l as [|a l IH]; intros H; [reflexivity|].
  rewrite !fmap_cons. cbn [total].
  rewrite (H a) by left. rewrite IH; [reflexivity|]. intros b Hb. apply H. now right.
Qed.

Lemma total_zero {A} (l : list A) : total ((fun _ => 0) <$> l) = 0.
Proof.
  induction l as [|a l IH]; [reflexivity|].
  rewrite fmap_cons. cbn [total]. rewrite IH. ring.
Qed.

Lemma total_all_zero {A} (f : A -> Qc) (l : list A) :
  (forall a, a ∈ l -> f a = 0) -> total (f <$> l) = 0.
Proof. intros H. rewrite (total_ext f (fun _ => 0)) by exact H. apply total_zero. Qed.

Lemma total_plus {A} (f g : A -> Qc) (l : list A) :
  total ((fun a => f a + g a) <$> l) = total (f <$> l) + total (g <$> l).
Proof.
  induction l as [|a l IH]; [cbn; ring|].
  rewrite !fmap_cons. cbn [total]. rewrite IH. ring.
Qed.

Lemma total_scale {A} (c : Qc) (f : A -> Qc) (l : list A) :
  total ((fun a => c * f a) <$> l) = c * total (f <$> l).
Proof.
  induction l as [|a l IH]; [cbn; ring|].
  rewrite !fmap_cons. cbn [total]. rewrite IH. ring.
Qed.

(** Summing over the indices [start, ..., start + n - 1] a term that is
    nonzero at [j] only. *)
Lemma total_single (n j : nat) (f : nat -> Qc) (start : nat) :
  total ((fun i => if decide (i = j) then f i else 0) <$> seq start n)
  = if decide (start <= j < start + n)%nat then f j else 0.
Proof.
  revert start. induction n as [|n IH]; intros start.
  - cbn. destruct (decide _); [lia | reflexivity].
  - cbn [seq]. rewrite fmap_cons. cbn [total]. rewrite IH.
    repeat destruct (decide _); subst; try lia; ring.
Qed.

Lemma total_swap {A B} (f : A -> B -> Qc) (la : list A) (lb : list B) :
  total ((fun a => total ((fun b => f a b) <$> lb)) <$> la)
  = total ((fun b => total ((fun a => f a b) <$> la)) <$> lb).
Proof.
  induction la as [|a la IH].
  - cbn. symmetry. apply total_all_zero. reflexivity.
  - rewrite fmap_cons. cbn [total]. rewrite IH, <- total_plus.
    apply total_ext. intros b _. rewrite fmap_cons. reflexivity.
Qed.

Lemma total_nonneg {A} (f : A -> Qc) (l : list A) :
  (forall a, a ∈ l -> 0 <= f a) -> 0 <= total (f <$> l).
Proof.
  induction l as [|a l IH]; intros H.
  - apply Qcle_refl.
  - rewrite fmap_cons. cbn [total]. apply Qcplus_nonneg_nonneg.
    + apply H. left.
    + apply IH. intros b Hb. apply H. now right.
Qed.

Lemma total_nonneg_zero {A} (f : A -> Qc) (l : list A) :
  (forall a, a ∈ l -> 0 <= f a) -> total (f <$> l) = 0 ->
  forall a, a ∈ l -> f a = 0.
Proof.
  induction l as [|a l IH]; intros Hpos Hsum b Hb.
  - inversion Hb.
  - rewrite fmap_cons in Hsum. cbn [total] in Hsum.
    assert (Ha : 0 <= f a) by (apply Hpos; left).
    assert (Hl : 0 <= total (f <$> l)).
    { apply total_nonneg. intros c Hc. apply Hpos. now right. }
    assert (Ha0 : f a = 0).
    { apply Qcle_antisym; [|exact Ha].
      replace (f a) with (- total (f <$> l)) by (rewrite (sum_zero_opp _ _ Hsum); ring).
      change 0 with (- 0). now apply Qcopp_le_compat. }
    apply elem_of_cons in Hb as [->|Hb]; [exact Ha0|].
    apply IH; [intros c Hc; apply Hpos; now right | | exact Hb].
    rewrite Ha0 in Hsum. rewrite <- Hsum. ring.
Qed.

(** *** Facts about the assembler *)

Lemma entry_add_entry (A : Matrix) (t : nat * nat * Qc) (i j : nat) :
  entry (add_entry A t) i j
  = entry A i j + (if decide ((t.1.1, t.1.2) = (i, j)) then t.2 else 0).
Proof.
  destruct t as [[i' j'] v]. unfold add_entry, entry. simpl.
  destruct (decide ((i', j') = (i, j))) as [[= -> ->]|Hne].
  - rewrite lookup_insert_eq. reflexivity.
  - rewrite lookup_insert_ne by exact Hne. ring.
Qed.

Lemma component_add_component (b : Vector) (t : nat * Qc) (i : nat) :
  component (add_component b t) i
  = component b i + (if decide (t.1 = i) then t.2 else 0).
Proof.
  destruct t as [i' v]. unfold add_component, component. simpl.
  destruct (decide (i' = i)) as [->|Hne].
  - rewrite lookup_insert_eq. reflexivity.
  - rewrite lookup_insert_ne by exact Hne. ring.
Qed.

Lemma add_entry_comm (A : Matrix) (t1 t2 : nat * nat * Qc) :
  add_entry (add_entry A t1) t2 = add_entry (add_entry A t2) t1.
Proof.
  destruct t1 as [[i1 j1] v1], t2 as [[i2 j2] v2].
  unfold add_entry, entry.
  destruct (decide ((i1, j1) = (i2, j2))) as [[= -> ->]|Hne].
  - rewrite !lookup_insert_eq, !insert_insert_eq. simpl.
    replace (default 0 (A !! (i2, j2)) + v1 + v2)
      with (default 0 (A !! (i2, j2)) + v2 + v1) by ring.
    reflexivity.
  - rewrite !lookup_insert_ne by congruence.
    apply insert_insert_ne. congruence.
Qed.

Lemma add_component_comm (b : Vector) (t1 t2 : nat * Qc) :
  add_component (add_component b t1) t2 = add_component (add_component b t2) t1.
Proof.
  destruct t1 as [i1 v1], t2 as [i2 v2].
  unfold add_component, component.
  destruct (decide (i1 = i2)) as [->|Hne].
  - rewrite !lookup_insert_eq, !insert_insert_eq. simpl.
    replace (default 0 (b !! i2) + v1 + v2)
      with (default 0 (b !! i2) + v2 + v1) by ring.
    reflexivity.
  - rewrite !lookup_insert_ne by congruence.
    apply insert_insert_ne. congruence.
Qed.

(** A left fold whose steps commute does not depend on the order of the
    list. *)
Lemma foldl_comm_permutation {A B} (f : B -> A -> B) (l1 l2 : list A) :
  (forall b a1 a2, f (f b a1) a2 = f (f b a2) a1) ->
  l1 ≡ₚ l2 -> forall b, foldl f b l1 = foldl f b l2.
Proof.
  intros Hcomm Hperm.
  induction Hperm as [|a l1 l2 _ IH|a1 a2 l|l1 l2 l3 _ IH1 _ IH2]; intros b; simpl.
  - reflexivity.
  - apply IH.
  - now rewrite Hcomm.
  - now rewrite IH1.
Qed.

(** A sum over a zipped pair of lists, as a sum over the positions of the
    first. *)
Lemma total_zip_index {A B} (h : A * B -> Qc) (u : list A) (v : list B) :
  total (h <$> zip u v)
  = total ((fun n => match u !! n, v !! n with
                     | Some a, Some b => h (a, b)
                     | _, _ => 0
                     end) <$> seq 0 (length u)).
Proof.
  revert v. induction u as [|a u IH]; intros v; [reflexivity|].
  cbn [length seq]. rewrite fmap_cons, <- fmap_S_seq, <- list_fmap_compose.
  destruct v as [|b v].
  - cbn [zip zip_with fmap list_fmap total]. symmetry.
    rewrite total_all_zero; [cbn; ring|].
    intros n _. unfold compose. cbn. destruct (u !! n); reflexivity.
  - cbn [zip zip_with]. rewrite fmap_cons. cbn [total lookup list_lookup].
    rewrite (IH v). reflexivity.
Qed.

Section AssemblerFacts.
Context {Cell : Type}.
Variable local_to_global : Cell -> list nat.
Variable local_matrix : Cell -> list (list Qc).
Variable local_vector : Cell -> list Qc.

Lemma scatter_matrix_comm (A : Matrix) (c1 c2 : Cell) :
  scatter_matrix local_to_global local_matrix
    (scatter_matrix local_to_global local_matrix A c1) c2
  = scatter_matrix local_to_global local_matrix
      (scatter_matrix local_to_global local_matrix A c2) c1.
Proof.
  unfold scatter_matrix. rewrite <- !foldl_app.
  apply foldl_comm_permutation; [apply add_entry_comm | apply Permutation_app_comm].
Qed.

Lemma scatter_vector_comm (b : Vector) (c1 c2 : Cell) :
  scatter_vector local_to_global local_vector
    (scatter_vector local_to_global local_vector b c1) c2
  = scatter_vector local_to_global local_vector
      (scatter_vector local_to_global local_vector b c2) c1.
Proof.
  unfold scatter_vector. rewrite <- !foldl_app.
  apply foldl_comm_permutation; [apply add_component_comm | apply Permutation_app_comm].
Qed.

Lemma entry_foldl_add (ts : list (nat * nat * Qc)) (A : Matrix) (i j : nat) :
  entry (foldl add_entry A ts) i j
  = entry A i j
    + total ((fun t : nat * nat * Qc =>
                if decide ((t.1.1, t.1.2) = (i, j)) then t.2 else 0) <$> ts).
Proof.
  revert A. induction ts as [|t ts IH]; intros A.
  - cbn. ring.
  - cbn [foldl]. rewrite IH, entry_add_entry, fmap_cons. cbn [total]. ring.
Qed.

Lemma entry_assemble_from (cells : list Cell) (A : Matrix) (i j : nat) :
  entry (foldl (scatter_matrix local_to_global local_matrix) A cells) i j
  = entry A i j + total ((fun c => landing local_to_global local_matrix c i j) <$> cells).
Proof.
  revert A. induction cells as [|c cells IH]; intros A.
  - cbn. ring.
  - cbn [foldl]. rewrite IH. unfold scatter_matrix.
    rewrite entry_foldl_add, fmap_cons. cbn [total]. unfold landing. ring.
Qed.

Lemma entry_assemble (cells : list Cell) (i j : nat) :
  entry (assemble_matrix local_to_global local_matrix cells) i j
  = total ((fun c => landing local_to_global local_matrix c i j) <$> cells).
Proof.
  unfold assemble_matrix. rewrite entry_assemble_from.
  unfold entry. rewrite lookup_empty. cbn [default]. ring.
Qed.
End AssemblerFacts.


Lemma dot_fmap_seq (f y : nat -> Qc) (start n : nat) :
  dot (f <$> seq start n) (y <$> seq start n)
  = total ((fun j => f j * y j) <$> seq start n).
Proof.
  revert start. induction n as [|n IH]; intros start; [reflexivity|].
  cbn [seq]. rewrite !fmap_cons. cbn [dot total]. now rewrite IH.
Qed.

Lemma list_as_fmap_seq (v : list Qc) (start : nat) :
  (fun j => nth (j - start) v 0) <$> seq start (length v) = v.
Proof.
  revert start. induction v as [|a v IH]; intros start; [reflexivity|].
  cbn [length seq]. rewrite fmap_cons, Nat.sub_diag. cbn [nth]. f_equal.
  rewrite <- (IH (S start)) at 2. apply list_fmap_ext.
  intros k j Hj. apply lookup_seq in Hj as [-> _].
  replace (S start + k - start)%nat with (S k) by lia.
  replace (S start + k - S start)%nat with k by lia. reflexivity.
Qed.

Lemma shaped_dense_rows (n : nat) (A : Matrix) (b : Vector) :
  shaped n (dense_rows n A b).
Proof.
  unfold shaped, dense_rows. rewrite Forall_fmap. apply Forall_forall.
  intros i _. cbn. now rewrite length_fmap, length_seq.
Qed.

Lemma length_dense_rows (n : nat) (A : Matrix) (b : Vector) :
  length (dense_rows n A b) = n.
Proof. unfold dense_rows. now rewrite length_fmap, length_seq. Qed.

Lemma apply_row_add_entry (n : nat) (A : Matrix) (t : nat * nat * Qc)
    (y : nat -> Qc) (i : nat) :
  (t.1.2 < n)%nat ->
  apply_row n (add_entry A t) y i
  = apply_row n A y i + (if decide (t.1.1 = i) then t.2 * y t.1.2 else 0).
Proof.
  destruct t as [[ti tj] v]. cbn [fst snd]. intros Hj. unfold apply_row.
  rewrite (total_ext _ (fun j => entry A i j * y j
                                 + (if decide (j = tj)
                                    then (if decide (ti = i) then v * y j else 0) else 0))).
  - rewrite total_plus, total_single.
    rewrite decide_True by lia. reflexivity.
  - intros j _. rewrite entry_add_entry. cbn [fst snd].
    destruct (decide ((ti, tj) = (i, j))) as [[= -> ->]|Hne].
    + rewrite !decide_True by reflexivity. ring.
    + destruct (decide (j = tj)) as [->|]; [|ring].
      rewrite decide_False by congruence. ring.
Qed.

Lemma apply_row_foldl_add (n : nat) (ts : list (nat * nat * Qc)) (A : Matrix)
    (y : nat -> Qc) (i : nat) :
  Forall (fun t : nat * nat * Qc => (t.1.2 < n)%nat) ts ->
  apply_row n (foldl add_entry A ts) y i
  = apply_row n A y i
    + total ((fun t : nat * nat * Qc =>
                if decide (t.1.1 = i) then t.2 * y t.1.2 else 0) <$> ts).
Proof.
  revert A. induction ts as [|t ts IH]; intros A Hts.
  - cbn. ring.
  - apply Forall_cons in Hts as [Ht Hts].
    cbn [foldl]. rewrite IH by exact Hts.
    rewrite apply_row_add_entry by exact Ht.
    rewrite fmap_cons. cbn [total]. ring.
Qed.


Lemma cell_action_rows (dofs : list nat) (local : list (list Qc))
    (y : nat -> Qc) (i : nat) :
  cell_action dofs local y i
  = total ((fun ir : nat * list Qc =>
              if decide (ir.1 = i)
              then total ((fun jv : nat * Qc => jv.2 * y jv.1) <$> zip dofs ir.2)
              else 0) <$> zip dofs local).
Proof.
  unfold cell_action, matrix_contributions. rewrite total_bind.
  apply total_ext. intros [i' row] _. cbn [fst snd].
  rewrite <- list_fmap_compose.
  destruct (decide (i' = i)) as [->|Hne].
  - apply total_ext. intros [j v] _. cbn [compose fst snd].
    destruct (decide (i = i)); [reflexivity | congruence].
  - apply total_all_zero.
    intros [j v] _. cbn [compose fst snd].
    destruct (decide (i' = i)); [congruence | reflexivity].
Qed.

Lemma contributions_columns_in_range (n : nat) (dofs : list nat) (local : list (list Qc)) :
  Forall (fun d => (d < n)%nat) dofs ->
  Forall (fun t : nat * nat * Qc => (t.1.2 < n)%nat) (matrix_contributions dofs local).
Proof.
  intros Hd. apply Forall_forall. intros [[i j] v] Ht. cbn.
  unfold matrix_contributions in Ht.
  apply list_elem_of_bind in Ht as [[i' row] [Ht _]].
  apply list_elem_of_fmap in Ht as [[j' v'] [[= -> -> ->] Hjv]].
  apply elem_of_zip_l in Hjv. rewrite Forall_forall in Hd. now apply Hd.
Qed.

Section Action.
Context {Cell : Type}.
Variable local_to_global : Cell -> list nat.
Variable local_matrix : Cell -> list (list Qc).

Lemma apply_row_assemble_from (n : nat) (cells : list Cell) (A : Matrix)
    (y : nat -> Qc) (i : nat) :
  Forall (fun c => Forall (fun d => (d < n)%nat) (local_to_global c)) cells ->
  apply_row n (foldl (scatter_matrix local_to_global local_matrix) A cells) y i
  = apply_row n A y i
    + total ((fun c => cell_action (local_to_global c) (local_matrix c) y i) <$> cells).
Proof.
  revert A. induction cells as [|c cells IH]; intros A Hc.
  - cbn. ring.
  - apply Forall_cons in Hc as [Hc Hcs].
    cbn [foldl]. rewrite IH by exact Hcs. unfold scatter_matrix.
    rewrite apply_row_foldl_add by now apply contributions_columns_in_range.
    rewrite fmap_cons. cbn [total]. unfold cell_action. ring.
Qed.

Lemma apply_row_assemble (n : nat) (cells : list Cell) (y : nat -> Qc) (i : nat) :
  Forall (fun c => Forall (fun d => (d < n)%nat) (local_to_global c)) cells ->
  apply_row n (assemble_matrix local_to_global local_matrix cells) y i
  = total ((fun c => cell_action (local_to_global c) (local_matrix c) y i) <$> cells).
Proof.
  intros Hc. unfold assemble_matrix. rewrite apply_row_assemble_from by exact Hc.
  assert (H0 : apply_row n ∅ y i = 0).
  { unfold apply_row. apply total_all_zero.
    intros j _. unfold entry. rewrite lookup_empty. cbn. ring. }
  rewrite H0. ring.
Qed.
End Action.

Lemma cell_action_constant (dofs : list nat) (local : list (list Qc)) (i : nat) :
  annihilates_constants dofs local ->
  cell_action dofs local (fun _ => 1) i = 0.
Proof.
  intros Hl. rewrite cell_action_rows. apply total_all_zero.
  intros [i' row] Hin. cbn [fst snd].
  destruct (decide (i' = i)); [|reflexivity].
  apply elem_of_zip_r in Hin. unfold annihilates_constants in Hl.
  rewrite Forall_forall in Hl. destruct (Hl row Hin) as [Hlen Hsum].
  rewrite <- Hsum. rewrite <- (snd_zip dofs row) at 2 by lia.
  rewrite (total_ext _ snd); [reflexivity|]. intros [j v] _. cbn. ring.
Qed.

Lemma constant_vector (n start : nat) (c : Qc) :
  replicate n c = (fun _ => c) <$> seq start n.
Proof.
  revert start. induction n as [|n IH]; intros start; [reflexivity|].
  cbn [replicate seq]. rewrite fmap_cons. f_equal. apply IH.
Qed.


(** *** Facts about projection *)

Lemma dot_zip (row : list Qc) (dofs : list nat) (y : nat -> Qc) :
  dot row (y <$> dofs) = total ((fun jv : nat * Qc => jv.2 * y jv.1) <$> zip dofs row).
Proof.
  revert dofs. induction row as [|a row IH]; intros [|d dofs]; try reflexivity.
  rewrite fmap_cons. cbn [dot zip zip_with]. rewrite fmap_cons. cbn [total fst snd].
  now rewrite IH.
Qed.

Lemma component_foldl_add (ts : list (nat * Qc)) (b : Vector) (i : nat) :
  component (foldl add_component b ts) i
  = component b i
    + total ((fun t : nat * Qc => if decide (t.1 = i) then t.2 else 0) <$> ts).
Proof.
  revert b. induction ts as [|t ts IH]; intros b.
  - cbn. ring.
  - cbn [foldl]. rewrite IH, component_add_component, fmap_cons. cbn [total]. ring.
Qed.


Lemma contributions_rows_in_range (n : nat) (dofs : list nat) (local : list (list Qc)) :
  Forall (fun d => (d < n)%nat) dofs ->
  Forall (fun t : nat * nat * Qc => (t.1.1 < n)%nat) (matrix_contributions dofs local).
Proof.
  intros Hd. apply Forall_forall. intros [[i j] v] Ht. cbn.
  unfold matrix_contributions in Ht.
  apply list_elem_of_bind in Ht as [[i' row] [Ht Hir]].
  apply list_elem_of_fmap in Ht as [[j' v'] [[= -> -> ->] _]].
  apply elem_of_zip_l in Hir. rewrite Forall_forall in Hd. now apply Hd.
Qed.

Lemma total_zip_fmap_r {A} (f : nat * Qc -> Qc) (g : A -> Qc) (dofs : list nat) (l : list A) :
  total (f <$> zip dofs (g <$> l))
  = total ((fun ia : nat * A => f (ia.1, g ia.2)) <$> zip dofs l).
Proof.
  revert dofs. induction l as [|a l IH]; intros [|d dofs]; try reflexivity.
  rewrite fmap_cons. cbn [zip zip_with]. rewrite !fmap_cons. cbn [total fst snd].
  now rewrite IH.
Qed.

(** Summed over the rows, weighted by [y], a cell's action is its quadratic
    form. *)
Lemma cell_action_quadratic (n : nat) (dofs : list nat) (local : list (list Qc))
    (y : nat -> Qc) :
  Forall (fun d => (d < n)%nat) dofs ->
  total ((fun i => y i * cell_action dofs local y i) <$> seq 0 n)
  = quadratic_form dofs local y.
Proof.
  intros Hd. unfold cell_action, quadratic_form.
  rewrite (total_ext _ (fun i => total ((fun t : nat * nat * Qc =>
             if decide (i = t.1.1) then y i * (t.2 * y t.1.2) else 0)
             <$> matrix_contributions dofs local))).
  - rewrite total_swap. apply total_ext. intros t Ht.
    rewrite (total_single n t.1.1 (fun i => y i * (t.2 * y t.1.2)) 0).
    rewrite decide_True; [reflexivity|].
    pose proof (contributions_rows_in_range n dofs local Hd) as Hr.
    rewrite Forall_forall in Hr. specialize (Hr t Ht). lia.
  - intros i _. rewrite <- total_scale. apply total_ext. intros t _.
    destruct (decide (t.1.1 = i)) as [<-|Hne].
    + now rewrite decide_True.
    + rewrite decide_False by congruence. ring.
Qed.

Section Projection.
Context {Cell : Type}.
Variable local_to_global : Cell -> list nat.
Variable local_matrix : Cell -> list (list Qc).
Variable dof_count : nat.
Variable cells : list Cell.

Hypothesis in_range :
  Forall (fun c => Forall (fun d => (d < dof_count)%nat) (local_to_global c)) cells.

Let M := assemble_matrix local_to_global local_matrix cells.

Lemma component_assemble_from (local_vector : Cell -> list Qc) (cs : list Cell)
    (b : Vector) (i : nat) :
  component (foldl (scatter_vector local_to_global local_vector) b cs) i
  = component b i
    + total ((fun c => total ((fun t : nat * Qc => if decide (t.1 = i) then t.2 else 0)
                                <$> zip (local_to_global c) (local_vector c))) <$> cs).
Proof.
  revert b. induction cs as [|c cs IH]; intros b.
  - cbn. ring.
  - cbn [foldl]. rewrite IH. unfold scatter_vector, vector_contributions.
    rewrite component_foldl_add, fmap_cons. cbn [total]. ring.
Qed.

(** The assembled right-hand side of a field of the trial space is the
    assembled matrix applied to the field's values. *)
Lemma load_is_matrix_times_field (field : nat -> Qc) (i : nat) :
  component (assemble_vector local_to_global
               (load_of_field local_to_global local_matrix field) cells) i
  = apply_row dof_count M field i.
Proof.
  unfold M. rewrite apply_row_assemble by exact in_range.
  unfold assemble_vector. rewrite component_assemble_from.
  unfold component at 1. rewrite lookup_empty. cbn [default]. rewrite Qcplus_0_l.
  apply total_ext. intros c _. rewrite cell_action_rows.
  unfold load_of_field. rewrite total_zip_fmap_r.
  apply total_ext. intros [i' row] _. cbn [fst snd].
  destruct (decide (i' = i)); [apply dot_zip | reflexivity].
Qed.

Lemma quadratic_form_assembled (y : nat -> Qc) :
  total ((fun i => y i * apply_row dof_count M y i) <$> seq 0 dof_count)
  = total ((fun c => quadratic_form (local_to_global c) (local_matrix c) y) <$> cells).
Proof.
  unfold M.
  rewrite (total_ext _ (fun i => total ((fun c =>
             y i * cell_action (local_to_global c) (local_matrix c) y i) <$> cells))).
  - rewrite total_swap. apply total_ext. intros c Hc.
    apply cell_action_quadratic. rewrite Forall_forall in in_range. now apply in_range.
  - intros i _. rewrite apply_row_assemble by exact in_range. now rewrite total_scale.
Qed.

Hypothesis covered :
  forall d, (d < dof_count)%nat -> exists c, c ∈ cells /\ d ∈ local_to_global c.
Hypothesis definite :
  Forall (fun c => positive_definite (local_to_global c) (local_matrix c)) cells.

Lemma definite_kernel (y : nat -> Qc) :
  (forall i, (i < dof_count)%nat -> apply_row dof_count M y i = 0) ->
  forall i, (i < dof_count)%nat -> y i = 0.
Proof.
  intros Hker i Hi.
  assert (Hq : total ((fun c => quadratic_form (local_to_global c) (local_matrix c) y)
                        <$> cells) = 0).
  { rewrite <- quadratic_form_assembled. apply total_all_zero.
    intros j Hj. apply elem_of_seq in Hj. rewrite Hker by lia. ring. }
  rewrite Forall_forall in definite.
  destruct (covered i Hi) as [c [Hc Hd]].
  assert (Hc0 : quadratic_form (local_to_global c) (local_matrix c) y = 0).
  { apply (total_nonneg_zero
             (fun c => quadratic_form (local_to_global c) (local_matrix c) y) cells);
      [|exact Hq|exact Hc].
    intros c' Hc'. apply (definite c' Hc' y). }
  destruct (definite c Hc y) as [_ Hzero].
  specialize (Hzero Hc0). rewrite Forall_forall in Hzero. now apply Hzero.
Qed.

Lemma annihilates_dense_row (b : Vector) (y : nat -> Qc) (i : nat) :
  annihilates (y <$> seq 0 dof_count) (entry M i <$> seq 0 dof_count, component b i)
  <-> apply_row dof_count M y i = 0.
Proof. unfold annihilates. cbn [fst]. now rewrite dot_fmap_seq. Qed.

Lemma mass_kernel_trivial (b : Vector) (v : list Qc) :
  length v = dof_count ->
  Forall (annihilates v) (dense_rows dof_count M b) ->
  Forall (fun a => a = 0) v.
Proof.
  intros Hlen Hann.
  rewrite <- (list_as_fmap_seq v 0), Hlen in Hann |- *.
  set (y := fun j => nth (j - 0) v 0) in *.
  rewrite Forall_fmap. apply Forall_forall. intros i Hi. unfold compose.
  apply elem_of_seq in Hi. apply definite_kernel; [|lia].
  intros j Hj. unfold dense_rows in Hann. rewrite Forall_fmap in Hann.
  rewrite Forall_forall in Hann.
  apply (annihilates_dense_row b y j). apply Hann. apply elem_of_seq. lia.
Qed.

End Projection.


Lemma square_nonneg (a : Qc) : 0 <= a * a.
Proof.
  destruct (Qclt_le_dec a 0) as [Hneg|Hpos].
  - replace (a * a) with (- a * - a) by ring.
    assert (H : 0 <= - a).
    { change 0 with (- 0). apply Qcopp_le_compat. now apply Qclt_le_weak. }
    now apply Qcmult_nonneg_nonneg.
  - now apply Qcmult_nonneg_nonneg.
Qed.

(** *** Facts about first-order Lagrange elements *)

Lemma p1_stiffness_annihilates_constants (coefficient : Qc -> Qc -> Qc) (c : P1Cell) :
  annihilates_constants (p1_dofs c) (p1_stiffness coefficient c).
Proof.
  unfold annihilates_constants, p1_stiffness, gradients.
  set (w := cell_average coefficient c / _).
  repeat (constructor; [split; [reflexivity | cbn; ring]|]). constructor.
Qed.

Lemma abs_pos (a : Qc) : a <> 0 -> 0 < abs a.
Proof.
  intros Ha. unfold abs. destruct (Qclt_le_dec a 0) as [Hneg|Hpos].
  - apply Qclt_minus_iff in Hneg. now rewrite Qcplus_0_l in Hneg.
  - destruct (Qcle_lt_or_eq _ _ Hpos) as [H|H]; [exact H | congruence].
Qed.

Lemma p1_mass_quadratic_form (c : P1Cell) (y : nat -> Qc) :
  quadratic_form (p1_dofs c) (p1_mass c) y
  = abs (det c) / q 24 1
    * total ((fun z => z * z) <$> [y (d0 c); y (d1 c); y (d2 c); y (d0 c) + y (d1 c) + y (d2 c)]).
Proof.
  unfold quadratic_form, p1_mass, p1_dofs.
  set (w := abs (det c) / q 24 1). cbn. ring.
Qed.

Lemma p1_mass_positive_definite (c : P1Cell) :
  det c <> 0 -> positive_definite (p1_dofs c) (p1_mass c).
Proof.
  intros Hdet y. rewrite p1_mass_quadratic_form.
  set (w := abs (det c) / q 24 1).
  set (zs := [y (d0 c); y (d1 c); y (d2 c); y (d0 c) + y (d1 c) + y (d2 c)]).
  assert (Hw : 0 < w).
  { unfold w, Qcdiv. apply Qcmult_pos_pos; [now apply abs_pos | reflexivity]. }
  assert (Hsq : forall z, z ∈ zs -> 0 <= (fun z => z * z) z)
    by (intros z _; apply square_nonneg).
  split.
  - apply Qcmult_nonneg_nonneg; [now apply Qclt_le_weak | now apply total_nonneg].
  - intros H0.
    apply Qcmult_integral in H0 as [H0|H0].
    { rewrite H0 in Hw. discriminate Hw. }
    pose proof (total_nonneg_zero _ _ Hsq H0) as Hz.
    unfold p1_dofs.
    assert (Hzero : forall z, z ∈ zs -> z = 0).
    { intros z Hin. specialize (Hz z Hin). cbn beta in Hz.
      now destruct (Qcmult_integral _ _ Hz). }
    unfold p1_dofs.
    repeat (constructor; [apply Hzero; unfold zs; rewrite !elem_of_cons; tauto|]).
    constructor.
Qed.


(** The pressure form on first-order elements is a pure-Neumann form on
    every triangle, whatever the coefficient. *)
Lemma channel_in_range :
  Forall (fun c => Forall (fun d => (d < 6)%nat) (p1_dofs c)) channel.
Proof. repeat constructor. Qed.

Lemma channel_covered (d : nat) :
  (d < 6)%nat -> exists c, c ∈ channel /\ d ∈ p1_dofs c.
Proof.
  intros Hd.
  destruct (decide (d = 2%nat \/ d = 3%nat)) as [H23|H23].
  - exists (p1_cell 1 2 3 (vertex 5 0) (vertex 10 0) (vertex 10 1)).
    split; [unfold channel; cbv zeta | unfold p1_dofs, p1_cell; cbn]; rewrite !elem_of_cons; tauto.
  - destruct (decide (d = 5%nat)) as [->|H5].
    + exists (p1_cell 0 4 5 (vertex 0 0) (vertex 5 1) (vertex 0 1)).
      split; [unfold channel; cbv zeta | unfold p1_dofs, p1_cell; cbn]; rewrite !elem_of_cons; tauto.
    + exists (p1_cell 0 1 4 (vertex 0 0) (vertex 5 0) (vertex 5 1)).
      split; [unfold channel; cbv zeta | unfold p1_dofs, p1_cell; cbn]; rewrite !elem_of_cons; [tauto | lia].
Qed.

Lemma channel_mass_definite :
  Forall (fun c => positive_definite (p1_dofs c) (p1_mass c)) channel.
Proof.
  unfold channel.
  repeat (constructor; [apply p1_mass_positive_definite; discriminate|]).
  constructor.
Qed.

(** *** Order of assembly, singular systems, projection *)

(** What one cell sends to the entry [(i, j)], position by position. *)
Lemma landing_by_position {Cell : Type} (local_to_global : Cell -> list nat)
    (local_matrix : Cell -> list (list Qc)) (c : Cell) (i j : nat) :
  landing local_to_global local_matrix c i j
  = total ((fun a =>
      total ((fun b =>
        if decide (local_to_global c !! a = Some i /\ local_to_global c !! b = Some j)
        then local_entry (local_matrix c) a b else 0)
        <$> seq 0 (length (local_to_global c))))
      <$> seq 0 (length (local_to_global c))).
Proof.
  unfold landing, matrix_contributions. rewrite total_bind, total_zip_index.
  apply total_ext. intros a _.
  destruct (local_to_global c !! a) as [di|] eqn:Ea.
  - destruct (local_matrix c !! a) as [row|] eqn:Er.
    + cbn [fst snd]. rewrite <- list_fmap_compose, total_zip_index.
      apply total_ext. intros b _. unfold local_entry. rewrite Er. cbn [mbind option_bind].
      destruct (local_to_global c !! b) as [dj|] eqn:Eb.
      * destruct (row !! b) as [v|]; unfold compose; cbn [fst snd default].
        -- destruct (decide ((di, dj) = (i, j))) as [[= -> ->]|Hne].
           ++ rewrite decide_True by tauto. reflexivity.
           ++ rewrite decide_False; [reflexivity|]. intros [[= ->] [= ->]]. congruence.
        -- destruct (decide _); reflexivity.
      * rewrite decide_False; [reflexivity|]. intros [_ [=]].
    + symmetry. apply total_all_zero. intros b _. unfold local_entry. rewrite Er.
      cbn. destruct (decide _); reflexivity.
  - symmetry. apply total_all_zero. intros b _.
    rewrite decide_False; [reflexivity|]. intros [[=] _].
Qed.

(** C7.  For every form (whatever local matrices and vectors the Form
    Evaluator returns for it) and every two orders of visiting the cells,
    the assembler produces the same global matrix and the same global
    vector; every global entry is the sum, over all cells and all local
    rows and columns that map to it, of the local entries there, and every
    global component likewise: contributions to a shared degree of freedom
    are added, none overwrites another.  In exact arithmetic the two
    results are equal, not merely close. *)
Theorem assembly_order_independent {Cell : Type} (local_to_global : Cell -> list nat)
    (local_matrix : Cell -> list (list Qc)) (local_vector : Cell -> list Qc)
    (cells1 cells2 : list Cell) :
  cells1 ≡ₚ cells2 ->
  assemble_matrix local_to_global local_matrix cells1
  = assemble_matrix local_to_global local_matrix cells2
  /\ assemble_vector local_to_global local_vector cells1
     = assemble_vector local_to_global local_vector cells2
  /\ (forall i j,
       entry (assemble_matrix local_to_global local_matrix cells1) i j
       = summed_entries local_to_global local_matrix cells1 i j)
  /\ (forall i,
       component (assemble_vector local_to_global local_vector cells1) i
       = summed_components local_to_global local_vector cells1 i).
Proof.
  intros Hperm. split; [|split; [|split]].
  - unfold assemble_matrix. apply foldl_comm_permutation; [|exact Hperm].
    apply scatter_matrix_comm.
  - unfold assemble_vector. apply foldl_comm_permutation; [|exact Hperm].
    apply scatter_vector_comm.
  - intros i j. rewrite entry_assemble. unfold summed_entries.
    apply total_ext. intros c _. apply landing_by_position.
  - intros i. unfold assemble_vector, summed_components.
    rewrite component_assemble_from.
    unfold component at 1. rewrite lookup_empty. cbn [default].
    rewrite Qcplus_0_l. apply total_ext. intros c _.
    rewrite total_zip_index.
    apply total_ext. intros a _.
    destruct (local_to_global c !! a) as [d|]; [|rewrite decide_False by congruence; reflexivity].
    destruct (local_vector c !! a) as [v|]; cbn [fst snd default].
    + destruct (decide (d = i)) as [->|Hne].
      * rewrite decide_True by reflexivity. reflexivity.
      * rewrite decide_False by congruence. reflexivity.
    + destruct (decide _); reflexivity.
Qed.

(** The theorem on the sample mesh, visited forwards and backwards.  The
    degrees of freedom 1 and 4 are shared by two triangles, whose
    contributions add up. *)
Lemma assembly_order_independent_channel :
  channel ≡ₚ reverse channel
  /\ assemble_matrix p1_dofs (p1_stiffness kQc) channel
     = assemble_matrix p1_dofs (p1_stiffness kQc) (reverse channel)
  /\ entry (assemble_matrix p1_dofs (p1_stiffness kQc) channel) 1 4
     = summed_entries p1_dofs (p1_stiffness kQc) channel 1 4.
Proof.
  split; [symmetry; apply reverse_Permutation|].
  destruct (assembly_order_independent p1_dofs (p1_stiffness kQc) no_load
              channel (reverse channel)) as (Hm & _ & He & _).
  { symmetry. apply reverse_Permutation. }
  split; [exact Hm | apply He].
Defined.

(** C2.  For every system assembled from a pure-Neumann form (each local
    matrix maps the constants to zero) on a space with at least one degree
    of freedom, with the empty set of Dirichlet constraints, the solve
    returns [SingularSystemError] and no solution vector. *)
Theorem pure_neumann_solve_is_singular {Cell : Type} (local_to_global : Cell -> list nat)
    (dof_count : nat)
    (local_matrix : Cell -> list (list Qc)) (local_vector : Cell -> list Qc)
    (cells : list Cell) :
  (0 < dof_count)%nat ->
  Forall (fun c => Forall (fun d => (d < dof_count)%nat) (local_to_global c)) cells ->
  Forall (fun c => annihilates_constants (local_to_global c) (local_matrix c)) cells ->
  variational_solve local_to_global dof_count local_matrix local_vector cells []
  = inl SingularSystemError.
Proof.
  intros Hn Hrange Hneumann.
  unfold variational_solve, enforce. cbn [foldl]. unfold solve.
  apply (eliminate_singular dof_count _ (replicate dof_count 1)).
  - apply shaped_dense_rows.
  - apply length_replicate.
  - unfold dense_rows. rewrite Forall_fmap. apply Forall_forall. intros i _.
    unfold annihilates, compose. cbn [fst].
    rewrite (constant_vector dof_count 0), dot_fmap_seq.
    change (apply_row dof_count
              (assemble_matrix local_to_global local_matrix cells) (fun _ => 1) i = 0).
    rewrite apply_row_assemble by exact Hrange.
    apply total_all_zero. intros c Hc.
    apply cell_action_constant. rewrite Forall_forall in Hneumann. now apply Hneumann.
  - destruct dof_count as [|m]; [lia|]. cbn [replicate].
    intros [H _]%Forall_cons. discriminate H.
Qed.

(** The theorem on the script's pressure form, with its coefficient [k],
    on the sample mesh. *)
Lemma pure_neumann_channel_is_singular :
  Forall (fun c => annihilates_constants (p1_dofs c) (p1_stiffness kQc c)) channel
  /\ variational_solve p1_dofs 6 (p1_stiffness kQc) no_load channel []
     = inl SingularSystemError.
Proof.
  assert (H : Forall (fun c => annihilates_constants (p1_dofs c) (p1_stiffness kQc c)) channel)
    by (apply Forall_forall; intros c _; apply p1_stiffness_annihilates_constants).
  split; [exact H|].
  apply pure_neumann_solve_is_singular; [lia | exact channel_in_range | exact H].
Defined.

(** C6.  For every field that lies in the trial space of the projection,
    given by its value [field d] at each degree of freedom [d], the
    mass-matrix solve of [inner(u, v)*dx == inner(field, v)*dx] returns
    exactly those values: every degree of freedom of the result equals the
    field there, provided the cells' degrees of freedom are those of the
    space and every local mass matrix is positive definite. *)
Theorem projection_recovers_field {Cell : Type} (local_to_global : Cell -> list nat)
    (dof_count : nat) (local_matrix : Cell -> list (list Qc))
    (cells : list Cell) (field : nat -> Qc) :
  Forall (fun c => Forall (fun d => (d < dof_count)%nat) (local_to_global c)) cells ->
  (forall d, (d < dof_count)%nat -> exists c, c ∈ cells /\ d ∈ local_to_global c) ->
  Forall (fun c => positive_definite (local_to_global c) (local_matrix c)) cells ->
  variational_solve local_to_global dof_count local_matrix
    (load_of_field local_to_global local_matrix field) cells []
  = inr (field <$> seq 0 dof_count).
Proof.
  intros Hrange Hcover Hdef.
  unfold variational_solve, enforce. cbn [foldl]. unfold solve.
  set (M := assemble_matrix local_to_global local_matrix cells).
  set (b := assemble_vector local_to_global
              (load_of_field local_to_global local_matrix field) cells).
  destruct (eliminate_total dof_count (dense_rows dof_count M b)) as [xs Hxs].
  - apply shaped_dense_rows.
  - apply length_dense_rows.
  - now apply mass_kernel_trivial.
  - rewrite Hxs. f_equal.
    destruct (eliminate_sound dof_count _ _ (shaped_dense_rows _ _ _)
                (Nat.eq_le_incl _ _ (length_dense_rows _ _ _)) Hxs) as [Hlen Hsat].
    rewrite <- (list_as_fmap_seq xs 0), Hlen in Hsat |- *.
    set (x := fun j => nth (j - 0) xs 0) in *.
    apply list_fmap_ext. intros i j Hj. apply lookup_seq in Hj as [-> Hi]. cbn.
    assert (Hz : x i - field i = 0).
    { apply (definite_kernel local_to_global local_matrix dof_count cells
               Hrange Hcover Hdef (fun j => x j - field j)); [|exact Hi].
      intros r Hr. unfold dense_rows in Hsat. rewrite Forall_fmap in Hsat.
      rewrite Forall_forall in Hsat.
      assert (Hin : r ∈ seq 0 dof_count) by (apply elem_of_seq; lia).
      specialize (Hsat r Hin). unfold compose, satisfies in Hsat. cbn [fst snd] in Hsat.
      rewrite dot_fmap_seq in Hsat. unfold b in Hsat.
      rewrite (load_is_matrix_times_field _ _ dof_count) in Hsat by exact Hrange.
      fold M in Hsat |- *. unfold apply_row in *.
      rewrite (total_ext _ (fun j => entry M r j * x j + (- 1) * (entry M r j * field j)))
        by (intros; ring).
      rewrite total_plus, total_scale, Hsat. ring. }
    rewrite <- (Qcplus_0_l (field i)), <- Hz. ring.
Qed.

(** The theorem on the sample mesh, for the field [-50 + 100*x/10]. *)
Lemma projection_recovers_ramp_on_channel :
  Forall (fun c => positive_definite (p1_dofs c) (p1_mass c)) channel
  /\ variational_solve p1_dofs 6 p1_mass (load_of_field p1_dofs p1_mass ramp) channel []
     = inr (ramp <$> seq 0 6).
Proof.
  split; [exact channel_mass_definite|].
  apply (projection_recovers_field p1_dofs 6 p1_mass channel ramp).
  - exact channel_in_range.
  - exact channel_covered.
  - exact channel_mass_definite.
Defined.

End Pipeline.
